(** * forwarder.py: MQTT to InfluxDB bridge

    A shallow embedding of [src/forwarder.py] and the properties of its
    message-translation pipeline: topic parsing, payload decoding and the
    dispatch of one inbound event to the registered stores.

    Conventions.
    - Python [str] and [bytes] objects are Rocq [string]s (8-bit characters).
      The client library delivers the payload as a [str] under Python 2 and
      as a [bytes] object under Python 3; both are covered.
    - The functions of the Python runtime and of third-party packages that
      the program calls but does not define ([json.loads], the numeric
      parser behind [float], [InfluxDBClient.write_points]) are the fields
      of the class [Extern]; every theorem holds for all of their
      behaviours, and [ref_extern] is an executable instance used to run
      the program on concrete messages.
    - [re] is embedded as a small backtracking matcher over the operators
      that occur in the program's pattern. *)

From Stdlib Require Import String Ascii ZArith List Bool Lia Floats.
From stdpp Require Import base option list strings gmap.

Local Open Scope string_scope.
Local Open Scope list_scope.
Set Warnings "-register-all".

(** ** Strings *)

(** [s.startswith(c)] and [s.endswith(c)] for a one-character [c]. *)
Definition startswith_char (s : string) (c : ascii) : bool :=
  match s with
  | EmptyString => false
  | String a _ => Ascii.eqb a c
  end.

Fixpoint endswith_char (s : string) (c : ascii) : bool :=
  match s with
  | EmptyString => false
  | String a EmptyString => Ascii.eqb a c
  | String _ s' => endswith_char s' c
  end.

(** [s[:-1]] *)
Fixpoint drop_last (s : string) : string :=
  match s with
  | EmptyString => EmptyString
  | String _ EmptyString => EmptyString
  | String a s' => String a (drop_last s')
  end.

Fixpoint str_take (n : nat) (s : string) : string :=
  match n, s with
  | S n', String a s' => String a (str_take n' s')
  | _, _ => EmptyString
  end.

(** The longest run of characters satisfying [p] at the start of [s],
    and what follows it. *)
Fixpoint span (p : ascii -> bool) (s : string) : string * string :=
  match s with
  | String a s' =>
      if p a then let '(t, r) := span p s' in (String a t, r)
      else (EmptyString, s)
  | EmptyString => (EmptyString, EmptyString)
  end.

Fixpoint str_forall (p : ascii -> bool) (s : string) : bool :=
  match s with
  | EmptyString => true
  | String a s' => p a && str_forall p s'
  end.

Definition in_range (lo hi : nat) (c : ascii) : bool :=
  (lo <=? nat_of_ascii c)%nat && (nat_of_ascii c <=? hi)%nat.

(** ** Regular expressions ([re]) *)

Module Re.

Inductive regex : Type :=
| Eps
| Lit (c : ascii)
| AnyChar
| Chars (p : ascii -> bool)   (* a character class, as [\w] *)
| Cat (r1 r2 : regex)
| Alt (r1 r2 : regex)
| Plus (r : regex)
| Opt (r : regex)
| Group (name : string) (r : regex).

(** The text of the named groups closed so far, most recent first. *)
Definition groups := list (string * string).

Definition group (name : string) (g : groups) : option string :=
  snd <$> List.find (fun p => String.eqb (fst p) name) g.

Section Matcher.
Context {A : Type}.

(** A backtracking matcher in continuation-passing style: [run r s g k]
    tries the ways of matching [r] at the start of [s] in the priority
    order of [re] (left alternative first, greedy repetition) and
    returns the first answer of [k] on the remaining text.  A repetition
    iterates at most [length s] times, which is exact for bodies that
    consume a character, as all repetitions of the program do. *)
Fixpoint run (r : regex) (s : string) (g : groups)
    (k : string -> groups -> option A) {struct r} : option A :=
  match r with
  | Eps => k s g
  | Lit c =>
      match s with
      | String a s' => if Ascii.eqb a c then k s' g else None
      | EmptyString => None
      end
  | AnyChar =>
      match s with
      | String a s' => if Ascii.eqb a "010" then None else k s' g
      | EmptyString => None
      end
  | Chars p =>
      match s with
      | String a s' => if p a then k s' g else None
      | EmptyString => None
      end
  | Cat r1 r2 => run r1 s g (fun s' g' => run r2 s' g' k)
  | Alt r1 r2 =>
      match run r1 s g k with
      | Some a => Some a
      | None => run r2 s g k
      end
  | Opt r1 =>
      match run r1 s g k with
      | Some a => Some a
      | None => k s g
      end
  | Plus r1 =>
      (fix iter (n : nat) (s : string) (g : groups) {struct n} : option A :=
         run r1 s g (fun s' g' =>
           match n with
           | O => k s' g'
           | S n' =>
               match iter n' s' g' with
               | Some a => Some a
               | None => k s' g'
               end
           end)) (String.length s) s g
  | Group name r1 =>
      run r1 s g (fun s' g' =>
        k s' ((name, str_take (String.length s - String.length s') s) :: g'))
  end.

(** The iteration of [Plus], by name. *)
Definition plus_iter (r1 : regex) (k : string -> groups -> option A)
    : nat -> string -> groups -> option A :=
  fix iter (n : nat) (s : string) (g : groups) {struct n} : option A :=
    run r1 s g (fun s' g' =>
      match n with
      | O => k s' g'
      | S n' =>
          match iter n' s' g' with
          | Some a => Some a
          | None => k s' g'
          end
      end).
End Matcher.

(** [regex.match(s)]: anchored at the start of [s] only. *)
Definition re_match (r : regex) (s : string) : option groups :=
  run r s [] (fun _ g => Some g).

End Re.

Import Re.

(** ** Python values *)

Inductive pyval : Type :=
| PNone
| PBool (b : bool)
| PInt (z : Z)
| PFloat (f : float)
| PStr (s : string)
| PBytes (s : string)
| PList (l : list pyval)
| PDict (d : list (string * pyval)).

Definition is_dict (v : pyval) : bool :=
  match v with PDict _ => true | _ => false end.

(** Exception classes that the program raises, catches or lets through. *)
Inductive exn : Type :=
| ValueError
| JSONDecodeError          (* json:      subclass of ValueError *)
| UnicodeDecodeError       (* builtin:   subclass of ValueError *)
| TypeError
| OverflowError
| KeyError
| AttributeError
| NotImplementedError
| RecursionError
| RequestsConnectionError  (* requests.exceptions.ConnectionError *)
| ConnectTimeout           (* requests:  subclass of ConnectionError *)
| ReadTimeout              (* requests:  not a ConnectionError *)
| InfluxDBClientError      (* influxdb:  the server rejected the request *)
| InfluxDBServerError.     (* influxdb:  the server failed *)

(** [except ValueError] *)
Definition is_ValueError (e : exn) : bool :=
  match e with
  | ValueError | JSONDecodeError | UnicodeDecodeError => true
  | _ => false
  end.

(** [except requests.exceptions.ConnectionError] *)
Definition is_ConnectionError (e : exn) : bool :=
  match e with
  | RequestsConnectionError | ConnectTimeout => true
  | _ => false
  end.

Inductive result (A : Type) : Type :=
| Ret (a : A)
| Raise (e : exn).
Arguments Ret {A} a.
Arguments Raise {A} e.

(** The payload of an MQTT message as the client library hands it over:
    a [str] under Python 2, a [bytes] object under Python 3. *)
Inductive raw_payload : Type :=
| Text (s : string)
| Bytes (s : string).

Definition payload_val (p : raw_payload) : pyval :=
  match p with Text s => PStr s | Bytes s => PBytes s end.

Definition payload_text (p : raw_payload) : string :=
  match p with Text s => s | Bytes s => s end.

(** *** [str] of a payload *)

Definition dquote : ascii := "034".
Definition squote : ascii := "039".
Definition backslash : ascii := "092".

Definition hex_digit (n : nat) : ascii :=
  match String.get n "0123456789abcdef" with Some c => c | None => "0"%char end.

Fixpoint str_contains (c : ascii) (s : string) : bool :=
  match s with
  | EmptyString => false
  | String a s' => Ascii.eqb a c || str_contains c s'
  end.

(** One byte of the [repr] of a [bytes] object delimited by [quote]. *)
Definition repr_byte (quote c : ascii) : string :=
  let n := nat_of_ascii c in
  if Ascii.eqb c quote || Ascii.eqb c backslash then String backslash (String c EmptyString)
  else if Ascii.eqb c "009" then String backslash "t"
  else if Ascii.eqb c "010" then String backslash "n"
  else if Ascii.eqb c "013" then String backslash "r"
  else if (n <? 32)%nat || (127 <=? n)%nat
       then String backslash (String "x" (String (hex_digit (n / 16)) (String (hex_digit (n mod 16)) EmptyString)))
  else String c EmptyString.

Fixpoint repr_bytes_body (quote : ascii) (b : string) : string :=
  match b with
  | EmptyString => EmptyString
  | String c b' => repr_byte quote c +:+ repr_bytes_body quote b'
  end.

(** [repr(b)] for [bytes]: [b'...'], or [b"..."] when the bytes contain a
    single quote and no double quote. *)
Definition repr_bytes (b : string) : string :=
  let quote := if str_contains squote b && negb (str_contains dquote b)
               then dquote else squote in
  String "b" (String quote (repr_bytes_body quote b +:+ String quote EmptyString)).

(** [str(value)]: the identity on a [str]; for [bytes] it is [repr]. *)
Definition py_str (p : raw_payload) : string :=
  match p with
  | Text s => s
  | Bytes b => repr_bytes b
  end.

(** *** Dictionaries (insertion-ordered, as association lists) *)

Definition dict := list (string * pyval).

Fixpoint dict_get (d : dict) (key : string) : option pyval :=
  match d with
  | [] => None
  | (k, v) :: d' => if String.eqb k key then Some v else dict_get d' key
  end.

(** [d[key] = v]: replaces the value in place, or appends a new entry. *)
Fixpoint dict_set (d : dict) (key : string) (v : pyval) : dict :=
  match d with
  | [] => [(key, v)]
  | (k, w) :: d' =>
      if String.eqb k key then (k, v) :: d' else (k, w) :: dict_set d' key v
  end.

Definition dict_keys (d : dict) : list string := fst <$> d.

(** ** The environment: library functions and the storage backend *)

Class Extern : Type := {
  (** [json.loads(value)] *)
  json_loads : raw_payload -> result pyval;
  (** the numeral parser of [float] on a [str] and on a [bytes] object;
      [None] is [ValueError] *)
  float_of_str : string -> option float;
  float_of_bytes : string -> option float;
  (** [float] on an [int]; [None] is [OverflowError] *)
  float_of_int : Z -> option float;
  (** whether [\w] accepts a character beyond ASCII; this depends on the
      Python version and on the type of the pattern *)
  word_beyond_ascii : ascii -> bool;
  (** the state of everything outside the process *)
  world : Type;
  (** [client.write_points(points)] for the InfluxDB client [client] *)
  write_points : nat -> list pyval -> world -> result unit * world;
}.

(** [float(v)] *)
Definition py_float `{Extern} (v : pyval) : result float :=
  match v with
  | PFloat f => Ret f
  | PBool b => Ret (if b then PrimFloat.one else PrimFloat.zero)
  | PInt z => match float_of_int z with Some f => Ret f | None => Raise OverflowError end
  | PStr s => match float_of_str s with Some f => Ret f | None => Raise ValueError end
  | PBytes s => match float_of_bytes s with Some f => Ret f | None => Raise ValueError end
  | PNone | PList _ | PDict _ => Raise TypeError
  end.

(** ** The topic pattern of [on_message] *)

Section TopicPattern.
Context `{Extern}.

(** [\w]: letters, digits and the underscore, and beyond ASCII what the
    environment says. *)
Definition is_word (c : ascii) : bool :=
  in_range 48 57 c || in_range 65 90 c || in_range 97 122 c || Ascii.eqb c "_"
  || ((128 <=? nat_of_ascii c)%nat && word_beyond_ascii c).

(** [(?:\w|-|\.)+] *)
Definition token_pattern : regex :=
  Plus (Alt (Chars is_word) (Alt (Lit "-") (Lit "."))).

Definition is_token_char (c : ascii) : bool :=
  is_word c || Ascii.eqb c "-" || Ascii.eqb c ".".

(** The characters [re] treats as operators; [.] is handled separately. *)
Definition is_operator (c : ascii) : bool :=
  existsb (Ascii.eqb c)
    ["\"; "^"; "$"; "*"; "+"; "?"; "{"; "}"; "["; "]"; "("; ")"; "|"]%char.

(** The pattern is built by interpolating the prefix into the pattern
    text without escaping it, so the prefix is read as a regular
    expression.  Prefixes made of ordinary characters and [.] are
    translated; a prefix that uses another operator of [re] is outside
    the fragment ([None]). *)
Fixpoint compile_prefix (p : string) : option regex :=
  match p with
  | EmptyString => Some Eps
  | String c p' =>
      if is_operator c then None
      else r ← compile_prefix p';
           Some (Cat (if Ascii.eqb c "." then AnyChar else Lit c) r)
  end.

(** [{topic_prefix}/(?P<node_name>{token_pattern})/(?P<measurement_name>{token_pattern})/?] *)
Definition topic_regex (topic_prefix : string) : option regex :=
  p ← compile_prefix topic_prefix;
  Some (Cat p
       (Cat (Lit "/")
       (Cat (Group "node_name" token_pattern)
       (Cat (Lit "/")
       (Cat (Group "measurement_name" token_pattern)
            (Opt (Lit "/"))))))).
End TopicPattern.

(** ** Effects: the heap of list objects, the outside world, the trace *)

Inductive store : Type :=
| MessageStore                        (* the base class *)
| InfluxStore (influx_client : nat).  (* holds its own client *)

Inductive level : Type := DEBUG | INFO | WARNING | ERROR.

Inductive logarg : Type :=
| Arg (v : pyval)
| ArgStrOf (v : pyval).   (* [str(v)], computed by the caller *)

(** What one run does that can be observed from outside it: the calls of
    the loggers, the entries into [store_msg] and the calls of the
    InfluxDB client. *)
Inductive event : Type :=
| Log (lvl : level) (logger : string) (fmt : string) (args : list logarg)
| LogException (logger : string) (e : exn)
| StoreMsg (st : store) (node_name measurement_name data : pyval)
| WritePoints (client : nat) (points : list pyval).

Definition loc := nat.

Section Program.
Context `{Extern}.

(** The list objects of the process (the only mutable objects whose
    sharing matters here) and the world outside. *)
Record state : Type := State {
  heap : gmap loc (list store);
  net : world;
}.

(** State, trace and exceptions. *)
Definition M (A : Type) : Type := state -> result A * state * list event.

Definition ret {A} (a : A) : M A := fun σ => (Ret a, σ, []).
Definition raise {A} (e : exn) : M A := fun σ => (Raise e, σ, []).

Definition bind {A B} (m : M A) (f : A -> M B) : M B := fun σ =>
  match m σ with
  | (Ret a, σ1, t1) => let '(r, σ2, t2) := f a σ1 in (r, σ2, (t1 ++ t2)%list)
  | (Raise e, σ1, t1) => (Raise e, σ1, t1)
  end.

(** [try: body except <cls>: handler] *)
Definition try_except {A} (body : M A) (cls : exn -> bool) (handler : exn -> M A) : M A :=
  fun σ =>
    match body σ with
    | (Raise e, σ1, t1) =>
        if cls e then let '(r, σ2, t2) := handler e σ1 in (r, σ2, (t1 ++ t2)%list)
        else (Raise e, σ1, t1)
    | done => done
    end.

Definition emit (e : event) : M unit := fun σ => (Ret tt, σ, [e]).

Definition lift {A} (r : result A) : M A := fun σ => (r, σ, []).

(** A new list object holding [l]. *)
Definition alloc (l : list store) : M loc := fun σ =>
  let r := fresh (dom (heap σ)) in
  (Ret r, State (<[r := l]> (heap σ)) (net σ), []).

Definition read (r : loc) : M (list store) := fun σ =>
  (Ret (default [] (heap σ !! r)), σ, []).

(** [r.append(x)] *)
Definition append (r : loc) (x : store) : M unit := fun σ =>
  (Ret tt, State (<[r := (default [] (heap σ !! r) ++ [x])%list]> (heap σ)) (net σ), []).

Definition call_write_points (client : nat) (points : list pyval) : M unit := fun σ =>
  let '(r, w) := write_points client points (net σ) in
  (r, State (heap σ) w, [WritePoints client points]).
End Program.

Declare Scope py_scope.
Delimit Scope py_scope with py.
Notation "'let*' x ':=' m 'in' k" := (bind m (fun x => k))
  (at level 10, x name, m at level 100, k at level 200) : py_scope.
Notation "m >> k" := (bind m (fun _ => k))
  (at level 100, k at level 200, right associativity) : py_scope.

Section Forwarder.
Context `{Extern}.
Local Open Scope py_scope.

(** [for x in l: body(x)] *)
Fixpoint for_each {A} (l : list A) (body : A -> M unit) : M unit :=
  match l with
  | [] => ret tt
  | x :: l' => body x >> for_each l' body
  end.

(** *** [MessageStore.store_msg] and [InfluxStore.store_msg] *)

Definition influx_msg (node_name measurement_name data : pyval) : pyval :=
  PDict [("measurement", measurement_name);
         ("tags", PDict [("sensor_node", node_name)]);
         ("fields", data)].

Definition store_msg (st : store) (node_name measurement_name data : pyval) : M unit :=
  emit (StoreMsg st node_name measurement_name data) >>
  match st with
  | MessageStore => raise NotImplementedError
  | InfluxStore influx_client =>
      if negb (is_dict data) then raise ValueError
      else
        let msg := influx_msg node_name measurement_name data in
        emit (Log DEBUG "forwarder.InfluxStore" "Writing InfluxDB point: %s" [Arg msg]) >>
        try_except (call_write_points influx_client [msg])
          is_ConnectionError
          (fun e => emit (LogException "forwarder.InfluxStore" e))
  end.

(** *** [MessageSource] and [MQTTSource] *)

(** The attributes of an [MQTTSource] that the handlers use.  [_stores]
    is [None] until the attribute has been created.  [stringify] is a list
    of measurement names; the default of the command line, the empty text,
    contains no measurement name and is the empty list here. *)
Record MQTTSource : Type := {
  node_names : list string;
  topic_prefix : string;
  stringify : list string;
  _stores : option loc;
}.

Definition set_stores (self : MQTTSource) (r : loc) : MQTTSource :=
  {| node_names := node_names self; topic_prefix := topic_prefix self;
     stringify := stringify self; _stores := Some r |}.

(** [register_store]: creates the list on first use, then appends.
    Returns the object with its attributes after the call. *)
Definition register_store (self : MQTTSource) (st : store) : M MQTTSource :=
  match _stores self with
  | None => let* r := alloc [] in append r st >> ret (set_stores self r)
  | Some r => append r st >> ret self
  end.

(** The property [stores]: a new list with the elements of [_stores]. *)
Definition stores (self : MQTTSource) : M loc :=
  match _stores self with
  | None => raise AttributeError
  | Some r => let* l := read r in alloc l
  end.

(** *** [MQTTSource._setup_handlers]: the prefix *)

Definition normalize_prefix (topic_prefix : string) : string :=
  match topic_prefix with
  | EmptyString => topic_prefix
  | _ =>
      let p := if negb (startswith_char topic_prefix "/")
               then "/" +:+ topic_prefix else topic_prefix in
      if endswith_char p "/" then drop_last p else p
  end.

(** [MQTTSource.__init__], as far as the handlers are concerned. *)
Definition MQTTSource_init (node_names : list string) (topic_prefix : string)
    (stringify_values_for_measurements : list string) : MQTTSource :=
  {| node_names := node_names;
     topic_prefix := normalize_prefix topic_prefix;
     stringify := stringify_values_for_measurements;
     _stores := None |}.

(** *** [on_message] *)

Record MQTTMessage : Type := { topic : string; payload : raw_payload }.

(** [match.group(name)]: the text of the group, or [None]. *)
Definition group_val (name : string) (m : groups) : pyval :=
  match group name m with Some s => PStr s | None => PNone end.

(** [v in l] for a list [l] of strings: a value that is not a string
    is in no such list.  The node names and the stringify set are
    modelled as lists, as the constructor takes them.  The empty text
    that the command line passes for the stringify set by default
    contains no non-empty string, like the empty list; on [None] it
    raises [TypeError] where a list answers no, but the handler
    extracts [None] only for a prefix with regex operators, for which
    [on_message] below is not defined. *)
Definition py_in (v : pyval) (l : list string) : bool :=
  match v with
  | PStr s => existsb (String.eqb s) l
  | _ => false
  end.

(** One round of the loop over the keys of a decoded JSON object. *)
Definition coerce_key (d : dict) (key : string) : M dict :=
  try_except
    (let* v := lift (match dict_get d key with
                     | Some v => Ret v
                     | None => Raise KeyError
                     end) in
     let* f := lift (py_float v) in
     ret (dict_set d key (PFloat f)))
    is_ValueError
    (fun _ => ret d).

Fixpoint coerce_keys (keys : list string) (d : dict) : M dict :=
  match keys with
  | [] => ret d
  | key :: keys' => let* d' := coerce_key d key in coerce_keys keys' d'
  end.

(** Lines 148-157: a payload that is not a JSON object.  The test of
    line 150 is [py_in], on a list. *)
Definition decode_single (self : MQTTSource) (measurement_name : pyval)
    (value : raw_payload) : M pyval :=
  let* value' :=
    if py_in measurement_name (stringify self)
    then ret (PStr (py_str value))
    else try_except
           (let* f := lift (py_float (payload_val value)) in ret (PFloat f))
           is_ValueError
           (fun _ => ret (payload_val value)) in
  ret (PDict [("value", value')]).

(** Lines 133-157 of the handler: from the payload to [stored_message]. *)
Definition decode (self : MQTTSource) (measurement_name : pyval)
    (value : raw_payload) : M pyval :=
  let* decoded :=
    try_except (let* v := lift (json_loads value) in ret (Some v))
      is_ValueError
      (fun _ => ret None) in
  match decoded with
  | Some (PDict stored_message) =>
      let* d := coerce_keys (dict_keys stored_message) stored_message in
      ret (PDict d)
  | _ => decode_single self measurement_name value
  end.

(** Lines 159-160: the dispatch loop. *)
Definition dispatch (self : MQTTSource) (node_name measurement_name stored_message : pyval)
    : M unit :=
  let* r := stores self in
  let* l := read r in
  for_each l (fun st => store_msg st node_name measurement_name stored_message).

Definition mqtt_logger : string := "forwarder.MQTTSource".

Definition unknown_node_warning (self : MQTTSource) (node_name : pyval) : event :=
  Log WARNING mqtt_logger
    "Extract node_name %s from topic, but requested to receive messages for node_names %s"
    [Arg node_name; ArgStrOf (PList (PStr <$> node_names self))].

Definition no_match_warning (msg : MQTTMessage) : event :=
  Log WARNING mqtt_logger
    "Could not extract node name or measurement name from topic %s"
    [Arg (PStr (topic msg))].

Definition received_debug (msg : MQTTMessage) : event :=
  Log DEBUG mqtt_logger
    "Received MQTT message for topic %s with payload %s"
    [Arg (PStr (topic msg)); Arg (payload_val (payload msg))].

(** The handler.  The result is [None] when the prefix is outside the
    fragment of [compile_prefix]. *)
Definition on_message (self : MQTTSource) (msg : MQTTMessage) : option (M unit) :=
  regex ← topic_regex (topic_prefix self);
  Some (
    emit (received_debug msg) >>
    match re_match regex (topic msg) with
    | None => emit (no_match_warning msg)
    | Some m =>
        let node_name := group_val "node_name" m in
        (if negb (py_in node_name (node_names self))
         then emit (unknown_node_warning self node_name)
         else ret tt) >>
        let measurement_name := group_val "measurement_name" m in
        let* stored_message := decode self measurement_name (payload msg) in
        dispatch self node_name measurement_name stored_message
    end)%py.
End Forwarder.

(** ** What the topic pattern accepts *)

Section TopicShape.
Context `{Extern}.

(** The prefix pattern against the start of the topic: an ordinary
    character stands for itself, [.] for any character but a newline. *)
Fixpoint strip_prefix (p s : string) : option string :=
  match p, s with
  | EmptyString, _ => Some s
  | String c p', String a s' =>
      if (if Ascii.eqb c "." then negb (Ascii.eqb a "010") else Ascii.eqb a c)
      then strip_prefix p' s' else None
  | String _ _, EmptyString => None
  end.

(** The node and measurement names that the pattern extracts, computed
    directly: after the prefix and a slash, the longest run of token
    characters, a slash, and again the longest run of token characters. *)
Definition parse_topic (topic_prefix topic : string) : option (string * string) :=
  match strip_prefix topic_prefix topic with
  | Some (String "/" r1) =>
      match span is_token_char r1 with
      | (String a node, String "/" r2) =>
          match span is_token_char r2 with
          | (String b meas, _) => Some (String a node, String b meas)
          | _ => None
          end
      | _ => None
      end
  | _ => None
  end.

(** A token: one or more characters of [(\w|-|\.)]. *)
Definition is_token (s : string) : bool :=
  match s with
  | EmptyString => false
  | _ => str_forall is_token_char s
  end.

(** A prefix that [re] reads literally. *)
Definition is_plain (p : string) : bool :=
  str_forall (fun c => negb (is_operator c) && negb (Ascii.eqb c ".")) p.

(** The shape of a topic in the words of the specification:
    [<prefix>/<token>/<token>], optionally followed by a slash and
    further path segments. *)
Definition spec_topic_shape (topic_prefix topic : string) : Prop :=
  ∃ node meas tail,
    topic = topic_prefix +:+ "/" +:+ node +:+ "/" +:+ meas +:+ tail ∧
    is_token node = true ∧ is_token meas = true ∧
    (tail = EmptyString ∨ ∃ t, tail = String "/" t).

(** The shape that the handler accepts: some initial segment of the
    topic is [<prefix>/<token>/<token>]. *)
Definition topic_shape (topic_prefix topic : string) : Prop :=
  ∃ node meas rest,
    topic = topic_prefix +:+ "/" +:+ node +:+ "/" +:+ meas +:+ rest ∧
    is_token node = true ∧ is_token meas = true.

(** The greedy choice over a run of token characters: the continuation is
    tried after the longest run first, then after each shorter one. *)
Fixpoint greedy {A} (k : string → groups → option A) (s : string) (g : groups) : option A :=
  match s with
  | String a s' =>
      if is_token_char a then
        match greedy k s' g with
        | Some x => Some x
        | None => k s' g
        end
      else None
  | EmptyString => None
  end.

Definition topic_groups (nm : string * string) : groups :=
  [("measurement_name", snd nm); ("node_name", fst nm)].

(** What follows the text does not start with a token character. *)
Definition ends_token (rest : string) : Prop :=
  match rest with
  | String a _ => is_token_char a = false
  | EmptyString => True
  end.
End TopicShape.

(** ** Registration sequences *)

Section Registration.
Context `{Extern}.
Local Open Scope py_scope.

(** [register_store] called once for each element of [sts], in order. *)
Fixpoint register_all (self : MQTTSource) (sts : list store) : M MQTTSource :=
  match sts with
  | [] => ret self
  | st :: sts' => let* self' := register_store self st in register_all self' sts'
  end.

(** Decoding followed by the dispatch: what the handler does once the
    topic has been parsed. *)
Definition forward (self : MQTTSource) (node_name measurement_name : pyval)
    (value : raw_payload) : M unit :=
  let* stored_message := decode self measurement_name value in
  dispatch self node_name measurement_name stored_message.

(** The state in which the dispatch loop runs: the copy made by
    [stores] has been allocated. *)
Definition after_copy (σ : state) (l : list store) : state :=
  State (<[fresh (dom (heap σ)) := l]> (heap σ)) (net σ).

(** The same outcome, placed in the heap [h]. *)
Definition with_heap {A} (h : gmap loc (list store))
    (x : result A * state * list event) : result A * state * list event :=
  (x.1.1, State h (net x.1.2), x.2).

(** The trace of a call of [InfluxStore.store_msg] up to the
    return of [write_points]. *)
Definition write_trace (c : nat) (n m : pyval) (d : dict) : list event :=
  [StoreMsg (InfluxStore c) n m (PDict d);
   Log DEBUG "forwarder.InfluxStore" "Writing InfluxDB point: %s"
     [Arg (influx_msg n m (PDict d))];
   WritePoints c [influx_msg n m (PDict d)]].

(** What the loop over the keys makes of a value on which [float]
    succeeds or raises [ValueError]. *)
Definition coerced (v : pyval) : pyval :=
  match py_float v with Ret f => PFloat f | Raise _ => v end.

Definition coercible (v : pyval) : Prop :=
  match py_float v with Ret _ => True | Raise e => is_ValueError e = true end.

(** The store calls of a trace. *)
Definition is_store_call (e : event) : bool :=
  match e with StoreMsg _ _ _ _ => true | _ => false end.

Definition store_calls (t : list event) : list event := List.filter is_store_call t.

(** The handler run from the state [σ]. *)
Definition on_message_at (self : MQTTSource) (msg : MQTTMessage) (σ : state)
    : option (result unit * state * list event) :=
  (fun m => m σ) <$> on_message self msg.
End Registration.

(** ** A reference environment

    An executable instance of [Extern], used to run the program on
    concrete messages.  It follows the Python library on a fragment:
    ASCII text; JSON without [\u] escapes; numerals whose digits fit in
    53 bits with a decimal exponent of at most 18 in absolute value, for
    which one IEEE operation on exact operands gives the correctly rounded
    result.  Outside the fragment it answers as for malformed input, and
    it is never used there. *)

Module Ref.

Definition is_digit (c : ascii) : bool := in_range 48 57 c.

Definition digit_val (c : ascii) : Z := (Z.of_nat (nat_of_ascii c) - 48)%Z.

Fixpoint digits_val (acc : Z) (s : string) : Z :=
  match s with
  | EmptyString => acc
  | String c s' => digits_val (10 * acc + digit_val c)%Z s'
  end.

Definition is_space (c : ascii) : bool :=
  Ascii.eqb c " " || in_range 9 13 c.

Fixpoint lstrip (s : string) : string :=
  match s with
  | String c s' => if is_space c then lstrip s' else s
  | EmptyString => EmptyString
  end.

Fixpoint rstrip (s : string) : string :=
  match s with
  | String c s' =>
      match rstrip s' with
      | EmptyString => if is_space c then EmptyString else String c EmptyString
      | t => String c t
      end
  | EmptyString => EmptyString
  end.

Fixpoint lower (s : string) : string :=
  match s with
  | String c s' =>
      String (if in_range 65 90 c then ascii_of_nat (nat_of_ascii c + 32) else c) (lower s')
  | EmptyString => EmptyString
  end.

(** An optional sign: [true] for [-]. *)
Definition sign (s : string) : bool * string :=
  match s with
  | String "-" s' => (true, s')
  | String "+" s' => (false, s')
  | _ => (false, s)
  end.

(** [digits[.digits][e[+-]digits]] or [.digits[...]]: the digits read as
    an integer, the decimal exponent, whether the numeral has a fraction
    or an exponent part, and the rest of the input. *)
Definition numeral (s : string) : option (Z * Z * bool * string) :=
  let '(ip, r1) := span is_digit s in
  let '(fp, r2, dot) :=
    match r1 with
    | String "." r => let '(fp, r') := span is_digit r in (fp, r', true)
    | _ => (EmptyString, r1, false)
    end in
  if ((String.length ip + String.length fp)%nat =? 0)%nat then None
  else
    let m := digits_val 0 (ip +:+ fp) in
    let e0 := Z.opp (Z.of_nat (String.length fp)) in
    match r2 with
    | String c r =>
        if Ascii.eqb c "e" || Ascii.eqb c "E" then
          let '(neg, r') := sign r in
          let '(ed, r3) := span is_digit r' in
          match ed with
          | EmptyString => Some (m, e0, dot, r2)
          | _ => let e := digits_val 0 ed in
                 Some (m, (e0 + (if neg then Z.opp e else e))%Z, true, r3)
          end
        else Some (m, e0, dot, r2)
    | EmptyString => Some (m, e0, dot, r2)
    end.

Definition z2f (z : Z) : float := PrimFloat.of_uint63 (Uint63.of_Z z).

(** [m * 10^e], correctly rounded, on the fragment. *)
Definition scale (m e : Z) : option float :=
  if (m =? 0)%Z then Some PrimFloat.zero
  else if (m <? 2 ^ 53)%Z && (-18 <=? e)%Z && (e <=? 18)%Z then
    Some (if (0 <=? e)%Z then PrimFloat.mul (z2f m) (z2f (10 ^ e))
          else PrimFloat.div (z2f m) (z2f (10 ^ (Z.opp e))))
  else None.

Definition signed (neg : bool) (f : float) : float :=
  if neg then PrimFloat.opp f else f.

(** [float(s)] for text. *)
Definition parse_float (s : string) : option float :=
  let '(neg, body) := sign (rstrip (lstrip s)) in
  let name := lower body in
  if String.eqb name "inf" || String.eqb name "infinity"
  then Some (signed neg PrimFloat.infinity)
  else if String.eqb name "nan" then Some PrimFloat.nan
  else
    match numeral body with
    | Some (m, e, _, EmptyString) => signed neg <$> scale m e
    | _ => None
    end.

Definition int_to_float (z : Z) : option float :=
  if (Z.abs z <? 2 ^ 53)%Z then Some (signed (z <? 0)%Z (z2f (Z.abs z))) else None.

(** *** JSON *)

Definition is_json_space (c : ascii) : bool :=
  Ascii.eqb c " " || Ascii.eqb c "009" || Ascii.eqb c "010" || Ascii.eqb c "013".

Fixpoint skip_ws (s : string) : string :=
  match s with
  | String c s' => if is_json_space c then skip_ws s' else s
  | EmptyString => EmptyString
  end.

Fixpoint str_drop (n : nat) (s : string) : string :=
  match n, s with
  | S n', String _ s' => str_drop n' s'
  | _, _ => s
  end.

(** [lit] at the start of [s]. *)
Definition keyword (lit : string) (v : pyval) (s : string) : option (pyval * string) :=
  if String.prefix lit s then Some (v, str_drop (String.length lit) s) else None.

Definition unescape (c : ascii) : option ascii :=
  if Ascii.eqb c dquote || Ascii.eqb c backslash || Ascii.eqb c "/" then Some c
  else if Ascii.eqb c "b" then Some "008"%char
  else if Ascii.eqb c "f" then Some "012"%char
  else if Ascii.eqb c "n" then Some "010"%char
  else if Ascii.eqb c "r" then Some "013"%char
  else if Ascii.eqb c "t" then Some "009"%char
  else None.

(** The characters of a JSON string, after its opening quote. *)
Fixpoint string_body (s : string) : option (string * string) :=
  match s with
  | EmptyString => None
  | String c s' =>
      if Ascii.eqb c dquote then Some (EmptyString, s')
      else if Ascii.eqb c backslash then
        match s' with
        | String e s'' =>
            a ← unescape e;
            '(t, r) ← string_body s'';
            Some (String a t, r)
        | EmptyString => None
        end
      else if (nat_of_ascii c <? 32)%nat then None
      else '(t, r) ← string_body s'; Some (String c t, r)
  end.

(** JSON numerals: no leading [+], no leading zeros, digits on both sides
    of the point. *)
Definition json_number (s : string) : option (pyval * string) :=
  let '(neg, body) := match s with String "-" s' => (true, s') | _ => (false, s) end in
  let body_ok :=
    match body with
    | String "0" (String d _) => negb (is_digit d)
    | String d _ => is_digit d
    | EmptyString => false
    end in
  if negb body_ok then None
  else
    match numeral body with
    | Some (m, e, real, r) =>
        match r with
        | String "." _ => None
        | _ =>
            if real then f ← scale m e; Some (PFloat (signed neg f), r)
            else Some (PInt (if neg then Z.opp m else m), r)
        end
    | None => None
    end.

Fixpoint value (fuel : nat) (s : string) {struct fuel} : option (pyval * string) :=
  match fuel with
  | O => None
  | S fuel' =>
      let s := skip_ws s in
      match s with
      | String "n" _ => keyword "null" PNone s
      | String "t" _ => keyword "true" (PBool true) s
      | String "f" _ => keyword "false" (PBool false) s
      | String "N" _ => keyword "NaN" (PFloat PrimFloat.nan) s
      | String "I" _ => keyword "Infinity" (PFloat PrimFloat.infinity) s
      | String "[" s' =>
          match skip_ws s' with
          | String "]" r => Some (PList [], r)
          | _ => items fuel' s' []
          end
      | String "{" s' =>
          match skip_ws s' with
          | String "}" r => Some (PDict [], r)
          | _ => members fuel' s' []
          end
      | String c s' =>
          if Ascii.eqb c dquote then '(t, r) ← string_body s'; Some (PStr t, r)
          else if String.prefix "-Infinity" s
               then keyword "-Infinity" (PFloat PrimFloat.neg_infinity) s
          else json_number s
      | EmptyString => None
      end
  end
with items (fuel : nat) (s : string) (acc : list pyval) {struct fuel}
    : option (pyval * string) :=
  match fuel with
  | O => None
  | S fuel' =>
      '(v, r) ← value fuel' s;
      match skip_ws r with
      | String "," r' => items fuel' r' (acc ++ [v])%list
      | String "]" r' => Some (PList (acc ++ [v])%list, r')
      | _ => None
      end
  end
with members (fuel : nat) (s : string) (acc : dict) {struct fuel}
    : option (pyval * string) :=
  match fuel with
  | O => None
  | S fuel' =>
      match skip_ws s with
      | String c s' =>
          if Ascii.eqb c dquote then
            '(key, r) ← string_body s';
            match skip_ws r with
            | String ":" r' =>
                '(v, r'') ← value fuel' r';
                match skip_ws r'' with
                | String "," r3 => members fuel' r3 (dict_set acc key v)
                | String "}" r3 => Some (PDict (dict_set acc key v), r3)
                | _ => None
                end
            | _ => None
            end
          else None
      | EmptyString => None
      end
  end.

Definition loads (p : raw_payload) : result pyval :=
  let s := payload_text p in
  match value (S (String.length s)) s with
  | Some (v, r) =>
      match skip_ws r with
      | EmptyString => Ret v
      | _ => Raise JSONDecodeError
      end
  | None => Raise JSONDecodeError
  end.

(** The backend follows a script: the outcomes of the coming calls of
    [write_points], in order; once the script is used up, writes succeed. *)
Definition scripted_write (client : nat) (points : list pyval)
    (w : list (result unit)) : result unit * list (result unit) :=
  match w with
  | [] => (Ret tt, [])
  | r :: w' => (r, w')
  end.

(** [\w] of Python 3 on the code points 128 to 255. *)
Definition latin1_word (c : ascii) : bool :=
  existsb (Nat.eqb (nat_of_ascii c)) [170; 178; 179; 181; 185; 186; 188; 189; 190]%nat
  || in_range 192 214 c || in_range 216 246 c || in_range 248 255 c.

End Ref.

Definition ref_extern : Extern := {|
  json_loads := Ref.loads;
  float_of_str := Ref.parse_float;
  float_of_bytes := Ref.parse_float;
  float_of_int := Ref.int_to_float;
  word_beyond_ascii := Ref.latin1_word;
  world := list (result unit);
  write_points := Ref.scripted_write;
|}.

(** ** Concrete sources, for running the handler *)

(** The state of a process that has created no list yet, with a backend
    that follows the script [w]; and a source for node [n] with the empty
    prefix, on which the stores [sts] have been registered in order,
    together with the state this leaves. *)
Definition fresh_state (w : list (result unit)) : @state ref_extern :=
  State (H := ref_extern) ∅ w.

Definition registered (sts : list store) (w : list (result unit))
    : MQTTSource * @state ref_extern :=
  match register_all (H := ref_extern) (MQTTSource_init ["n"] EmptyString ["state"]) sts
          (fresh_state w) with
  | (Ret self, σ, _) => (self, σ)
  | (Raise _, σ, _) => (MQTTSource_init ["n"] EmptyString ["state"], σ)
  end.

(** The outcome and the trace of a run of the handler. *)
Definition observe (out : option (result unit * @state ref_extern * list event))
    : option (result unit * list event) :=
  (fun o => (o.1.1, o.2)) <$> out.

(** JSON text written with single quotes in place of double quotes. *)
Fixpoint js (s : string) : string :=
  match s with
  | String c r => String (if Ascii.eqb c squote then dquote else c) (js r)
  | EmptyString => EmptyString
  end.

(** ** [on_connect] *)

(** The calls that [on_connect] makes. *)
Inductive client_call : Type :=
| LogInfo (logger : string) (fmt : string) (args : list logarg)
| Subscribe (topic : string).

Section OnConnect.
(** The outcome of [client.subscribe(topic)]. *)
Variable subscribe : string -> result unit.

(** ["{topic_prefix}/{node_name}/#".format(...)] *)
Definition subscription_topic (self : MQTTSource) (node_name : string) : string :=
  topic_prefix self +:+ "/" +:+ node_name +:+ "/#".

(** The loop over [self.node_names]. *)
Fixpoint subscribe_all (self : MQTTSource) (names : list string)
    : result unit * list client_call :=
  match names with
  | [] => (Ret tt, [])
  | node_name :: names' =>
      let topic := subscription_topic self node_name in
      let info := LogInfo mqtt_logger "Subscribing to topic %s for node_name %s"
                    [Arg (PStr topic); Arg (PStr node_name)] in
      match subscribe topic with
      | Ret _ =>
          let '(r, t) := subscribe_all self names' in
          (r, info :: Subscribe topic :: t)
      | Raise e => (Raise e, [info; Subscribe topic])
      end
  end.

Definition on_connect (self : MQTTSource) (rc : Z) : result unit * list client_call :=
  let '(r, t) := subscribe_all self (node_names self) in
  (r, LogInfo mqtt_logger "Connected with result code  %s" [Arg (PInt rc)] :: t).

(** The topics of the [Subscribe] calls of a trace. *)
Fixpoint subscriptions (t : list client_call) : list string :=
  match t with
  | [] => []
  | Subscribe topic :: t' => topic :: subscriptions t'
  | _ :: t' => subscriptions t'
  end.
End OnConnect.

(** ** [MQTTSource.__init__] and the credentials *)

(** The calls on the MQTT client library during construction. *)
Inductive setup_call : Type :=
| NewClient (client_id transport : string)
| UsernamePwSet (username password : string).

Section Construction.
(** [int(port)], [open(path).read().strip()] and
    [mqtt.Client(client_id=..., transport=...)]. *)
Variable int_of_text : string -> result Z.
Variable read_stripped : string -> result string.
Variable new_client : string -> string -> result unit.

(** The connection attributes of the object; [password] is [None] when
    the attribute has not been set. *)
Record connection : Type := {
  host : string;
  port : Z;
  username : option string;
  password : option string;
  client_id : string;
  transport : string;
}.

(** [MQTTSource.__init__] with [_setup_handlers]: the object, or the
    exception that ends the construction, and the calls made on the
    client library up to there. *)
Definition MQTTSource_new (host port : string) (username password_file : option string)
    (client_id transport : string) (node_names : list string) (topic_prefix : string)
    (stringify_values_for_measurements : list string)
    : result (connection * MQTTSource) * list setup_call :=
  match int_of_text port with
  | Raise e => (Raise e, [])
  | Ret port' =>
      match (match password_file with
             | Some path =>
                 match read_stripped path with
                 | Ret pw => Ret (Some pw)
                 | Raise e => Raise e
                 end
             | None => Ret None
             end) with
      | Raise e => (Raise e, [])
      | Ret password =>
          let self :=
            ({| host := host; port := port'; username := username;
                password := password; client_id := client_id;
                transport := transport |},
             MQTTSource_init node_names topic_prefix stringify_values_for_measurements) in
          match new_client client_id transport with
          | Raise e => (Raise e, [NewClient client_id transport])
          | Ret _ =>
              match username with
              | None => (Ret self, [NewClient client_id transport])
              | Some user =>
                  match password with
                  | Some pw =>
                      (Ret self, [NewClient client_id transport; UsernamePwSet user pw])
                  | None => (Raise AttributeError, [NewClient client_id transport])
                  end
              end
          end
      end
  end.
End Construction.

(** ** Observations on traces *)

Definition is_write (e : event) : bool :=
  match e with WritePoints _ _ => true | _ => false end.

(** The calls of [write_points] of a trace. *)
Definition writes (t : list event) : list event := List.filter is_write t.

(** One entry of a decoded object against the entry it comes from: the
    same key, and the value either kept or replaced by a number. *)
Definition entry_coerced (a b : string * pyval) : Prop :=
  b.1 = a.1 ∧ (b.2 = a.2 ∨ ∃ f, b.2 = PFloat f).

Ltac unfold_M :=
  unfold bind, ret, raise, lift, emit, try_except, read, alloc, append in *.

(** * Properties *)

(** ** Strings *)

Lemma append_cons a (t r : string) : String a t +:+ r = String a (t +:+ r).
Proof. reflexivity. Qed.

Lemma append_nil_l (r : string) : EmptyString +:+ r = r.
Proof. reflexivity. Qed.

Lemma append_assoc (a b c : string) : (a +:+ b) +:+ c = a +:+ (b +:+ c).
Proof. induction a as [|x a IH]; [done|]. by rewrite !append_cons, IH. Qed.

Lemma append_nil_r (a : string) : a +:+ EmptyString = a.
Proof. induction a as [|x a IH]; [done|]. by rewrite append_cons, IH. Qed.

Lemma length_append (t r : string) :
  String.length (t +:+ r) = String.length t + String.length r.
Proof. induction t as [|c t IH]; [done|]. rewrite append_cons. simpl. by rewrite IH. Qed.

Lemma span_append p s : fst (span p s) +:+ snd (span p s) = s.
Proof.
  induction s as [|a s IH]; simpl; [done|].
  destruct (p a); [|done].
  destruct (span p s) as [t r]. simpl in IH |- *. by rewrite append_cons, IH.
Qed.

Lemma span_forall p s : str_forall p (fst (span p s)) = true.
Proof.
  induction s as [|a s IH]; simpl; [done|].
  destruct (p a) eqn:Ha; [|done].
  destruct (span p s) as [t r]. simpl in IH |- *. by rewrite Ha, IH.
Qed.

Lemma span_rest p s a r : snd (span p s) = String a r → p a = false.
Proof.
  induction s as [|b s IH]; simpl; [done|].
  destruct (p b) eqn:Hb.
  - destruct (span p s) as [t r']. simpl in IH |- *. exact IH.
  - simpl. intros [= -> _]. exact Hb.
Qed.

(** A run followed by a character outside [p] is the longest run. *)
Lemma span_app p t r :
  str_forall p t = true →
  match r with String a _ => p a = false | EmptyString => True end →
  span p (t +:+ r) = (t, r).
Proof.
  intros Ht Hr. induction t as [|b t IH].
  - destruct r as [|a r]; simpl; [done|]. by rewrite Hr.
  - apply andb_true_iff in Ht as [Hb Ht].
    rewrite append_cons. simpl. by rewrite Hb, (IH Ht).
Qed.

Lemma str_take_app t r :
  str_take (String.length (t +:+ r) - String.length r) (t +:+ r) = t.
Proof.
  rewrite length_append.
  replace (String.length t + String.length r - String.length r) with (String.length t) by lia.
  induction t as [|c t IH]; [done|]. rewrite append_cons. simpl. by rewrite IH.
Qed.

Lemma str_take_span p s :
  str_take (String.length s - String.length (snd (span p s))) s = fst (span p s).
Proof.
  rewrite <- (span_append p s) at 1 3. apply str_take_app.
Qed.

(** ** The matcher on the topic pattern *)

Section TopicTheory.
Context `{Extern}.

Lemma is_token_char_slash : is_token_char "/" = false.
Proof. reflexivity. Qed.

(** One token character. *)
Lemma run_token_char {A} s g (k : string → groups → option A) :
  run (Alt (Chars is_word) (Alt (Lit "-") (Lit "."))) s g k =
  match s with
  | String a s' => if is_token_char a then k s' g else None
  | EmptyString => None
  end.
Proof.
  destruct s as [|a s']; [done|]. unfold is_token_char. simpl.
  destruct (is_word a), (Ascii.eqb a "-"), (Ascii.eqb a "."), (k s' g); reflexivity.
Qed.

Lemma run_Plus {A} r s g (k : string → groups → option A) :
  run (Plus r) s g k = plus_iter r k (String.length s) s g.
Proof. reflexivity. Qed.

Lemma plus_iter_unfold {A} r (k : string → groups → option A) n s g :
  plus_iter r k n s g =
  run r s g (fun s' g' =>
    match n with
    | O => k s' g'
    | S n' =>
        match plus_iter r k n' s' g' with
        | Some a => Some a
        | None => k s' g'
        end
    end).
Proof. destruct n; reflexivity. Qed.

Lemma plus_iter_greedy {A} (k : string → groups → option A) n s g :
  (String.length s ≤ n)%nat →
  plus_iter (Alt (Chars is_word) (Alt (Lit "-") (Lit "."))) k n s g = greedy k s g.
Proof.
  revert s. induction n as [|n IH]; intros s Hn.
  - destruct s; [|simpl in Hn; lia]. by rewrite plus_iter_unfold, run_token_char.
  - destruct s as [|a s']; [by rewrite plus_iter_unfold, run_token_char|].
    simpl in Hn. rewrite plus_iter_unfold, run_token_char. simpl.
    destruct (is_token_char a); [|done].
    rewrite IH by lia. done.
Qed.

Lemma run_token_pattern {A} (k : string → groups → option A) s g :
  run token_pattern s g k = greedy k s g.
Proof. unfold token_pattern. rewrite run_Plus. by apply plus_iter_greedy. Qed.

(** If the continuation accepts what follows the longest run, that is
    the answer. *)
Lemma greedy_first {A} (k : string → groups → option A) s g x :
  fst (span is_token_char s) ≠ EmptyString →
  k (snd (span is_token_char s)) g = Some x →
  greedy k s g = Some x.
Proof.
  induction s as [|a s IH]; simpl; [done|].
  destruct (is_token_char a) eqn:Ha; [|done].
  destruct (span is_token_char s) as [t r] eqn:Hs. simpl in *.
  intros _ Hk. destruct s as [|b s'].
  - simpl in Hs. injection Hs as <- <-. done.
  - simpl in Hs. destruct (is_token_char b) eqn:Hb.
    + rewrite IH; [done| |done].
      destruct (span is_token_char s'); injection Hs as <- <-. done.
    + injection Hs as <- <-. simpl. by rewrite Hb.
Qed.

(** If the continuation rejects every text that starts with a token
    character, only the longest run can succeed. *)
Lemma greedy_longest {A} (k : string → groups → option A) s g :
  (∀ a s' g', is_token_char a = true → k (String a s') g' = None) →
  greedy k s g =
    match fst (span is_token_char s) with
    | EmptyString => None
    | _ => k (snd (span is_token_char s)) g
    end.
Proof.
  intros Hk. induction s as [|a s IH]; simpl; [done|].
  destruct (is_token_char a) eqn:Ha; [|done].
  rewrite IH. destruct (span is_token_char s) as [t r] eqn:Hs. simpl.
  destruct t as [|b t].
  - destruct s as [|c s']; [by injection Hs as <-|].
    simpl in Hs. destruct (is_token_char c) eqn:Hc.
    + destruct (span is_token_char s'); done.
    + by injection Hs as <-.
  - destruct (k r g) eqn:Hr; [done|].
    destruct s as [|c s']; [done|]. simpl in Hs.
    destruct (is_token_char c) eqn:Hc; [by apply Hk|done].
Qed.

Lemma greedy_none {A} (k : string → groups → option A) s g :
  fst (span is_token_char s) = EmptyString → greedy k s g = None.
Proof.
  destruct s as [|a s]; simpl; [done|].
  destruct (is_token_char a); [|done].
  by destruct (span is_token_char s).
Qed.

Lemma run_compile_prefix {A} p rp s g (k : string → groups → option A) :
  compile_prefix p = Some rp →
  run rp s g k = match strip_prefix p s with Some r => k r g | None => None end.
Proof.
  revert rp s. induction p as [|c p IH]; intros rp s; simpl.
  - intros [= <-]. by destruct s.
  - destruct (is_operator c); [done|].
    destruct (compile_prefix p) as [rp'|]; [|done]. simpl. intros [= <-].
    destruct s as [|a s]; simpl.
    + by destruct (Ascii.eqb c ".").
    + destruct (Ascii.eqb c "."); simpl.
      * destruct (Ascii.eqb a "010"); simpl; [done|]. by apply IH.
      * destruct (Ascii.eqb a c); [|done]. by apply IH.
Qed.

(** [/?] followed by the end of the pattern always succeeds. *)
Lemma run_opt_slash s g :
  run (Opt (Lit "/")) s g (fun _ g' => Some g') = Some g.
Proof. destruct s as [|a s]; simpl; [done|]. by destruct (Ascii.eqb a "/"). Qed.

(** The matcher on the topic pattern computes [parse_topic]. *)
Lemma re_match_topic p rx topic :
  topic_regex p = Some rx →
  re_match rx topic = topic_groups <$> parse_topic p topic.
Proof.
  unfold topic_regex, re_match, parse_topic.
  destruct (compile_prefix p) as [rp|] eqn:Hp; [|done]. simpl. intros [= <-].
  change (run (Cat rp ?r) ?s ?g ?k) with (run rp s g (fun s' g' => run r s' g' k)).
  rewrite (run_compile_prefix _ _ _ _ _ Hp).
  destruct (strip_prefix p topic) as [[|c r1]|]; [done| |done].
  change (run (Cat (Lit "/") ?r) (String c r1) ?g ?k)
    with (if Ascii.eqb c "/" then run r r1 g k else None).
  destruct (Ascii.eqb_spec c "/") as [->|Hc].
  2:{ destruct c as [[] [] [] [] [] [] [] []]; try done. }
  change (run (Cat (Group ?n token_pattern) ?r) r1 ?g ?k)
    with (run token_pattern r1 g (fun s' g' =>
            run r s' ((n, str_take (String.length r1 - String.length s') r1) :: g') k)).
  rewrite run_token_pattern, greedy_longest.
  2:{ intros a s' g' Ha. simpl.
      destruct (Ascii.eqb_spec a "/") as [->|]; [|done]. done. }
  rewrite str_take_span.
  destruct (span is_token_char r1) as [node r2] eqn:Hnode. simpl fst; simpl snd.
  destruct node as [|a node]; [done|].
  destruct r2 as [|c2 r2]; [done|].
  change (run (Cat (Lit "/") ?r) (String c2 r2) ?g ?k)
    with (if Ascii.eqb c2 "/" then run r r2 g k else None).
  destruct (Ascii.eqb_spec c2 "/") as [->|Hc2].
  2:{ destruct c2 as [[] [] [] [] [] [] [] []]; try done. }
  change (run (Cat (Group ?n token_pattern) ?r) r2 ?g ?k)
    with (run token_pattern r2 g (fun s' g' =>
            run r s' ((n, str_take (String.length r2 - String.length s') r2) :: g') k)).
  rewrite run_token_pattern.
  destruct (span is_token_char r2) as [meas r3] eqn:Hmeas.
  destruct meas as [|b meas].
  - rewrite greedy_none; [done|]. by rewrite Hmeas.
  - erewrite greedy_first; [done|by rewrite Hmeas|].
    rewrite run_opt_slash, str_take_span, Hmeas. done.
Qed.

(** ** The topic shape *)

Lemma compile_prefix_plain p : is_plain p = true → is_Some (compile_prefix p).
Proof.
  induction p as [|c p IH]; simpl; [by eexists|].
  intros [[Hop _]%andb_true_iff Hp]%andb_true_iff.
  apply negb_true_iff in Hop. rewrite Hop.
  destruct (IH Hp) as [r ->]. by eexists.
Qed.

Lemma topic_regex_plain p : is_plain p = true → is_Some (topic_regex p).
Proof.
  intros Hp. unfold topic_regex.
  destruct (compile_prefix_plain p Hp) as [r ->]. by eexists.
Qed.

Lemma strip_prefix_plain p s r :
  is_plain p = true → strip_prefix p s = Some r ↔ s = p +:+ r.
Proof.
  intros Hp. revert s. induction p as [|c p IH]; intros s; simpl.
  - split; [by intros [= ->]|by intros ->].
  - simpl in Hp. apply andb_true_iff in Hp as [[_ Hdot]%andb_true_iff Hp].
    apply negb_true_iff in Hdot. rewrite Hdot, append_cons.
    destruct s as [|a s]; [done|].
    destruct (Ascii.eqb_spec a c) as [->|Hne].
    + rewrite (IH Hp). split; [by intros ->|by intros [= ->]].
    + split; [done|]. intros [= ? _]. done.
Qed.

Lemma is_token_forall s : is_token s = true → str_forall is_token_char s = true.
Proof. by destruct s. Qed.

Lemma is_token_app t u :
  is_token t = true → str_forall is_token_char u = true → is_token (t +:+ u) = true.
Proof.
  destruct t as [|a t]; [done|]. rewrite append_cons. simpl.
  intros [Ha Ht]%andb_true_iff Hu. rewrite Ha. simpl.
  clear Ha. induction t as [|b t IH]; [done|].
  rewrite append_cons. simpl in *. apply andb_true_iff in Ht as [-> Ht]. by apply IH.
Qed.

Lemma parse_topic_intro p node meas rest :
  is_plain p = true → is_token node = true → is_token meas = true →
  ends_token rest →
  parse_topic p (p +:+ "/" +:+ node +:+ "/" +:+ meas +:+ rest) = Some (node, meas).
Proof.
  intros Hp Hn Hm Hr. unfold parse_topic.
  rewrite (proj2 (strip_prefix_plain p _ _ Hp) eq_refl).
  rewrite !append_cons, !append_nil_l.
  rewrite (span_app is_token_char node); [|by apply is_token_forall|done].
  destruct node as [|a node]; [done|].
  rewrite (span_app is_token_char meas); [|by apply is_token_forall|done].
  by destruct meas.
Qed.

Lemma parse_topic_elim p topic node meas :
  is_plain p = true →
  parse_topic p topic = Some (node, meas) →
  ∃ rest, topic = p +:+ "/" +:+ node +:+ "/" +:+ meas +:+ rest ∧
          is_token node = true ∧ is_token meas = true ∧ ends_token rest.
Proof.
  intros Hp. unfold parse_topic.
  destruct (strip_prefix p topic) as [[|c r1]|] eqn:Hs; [done| |done].
  apply (strip_prefix_plain _ _ _ Hp) in Hs.
  destruct c as [[] [] [] [] [] [] [] []]; try done.
  pose proof (span_append is_token_char r1) as Ha1.
  pose proof (span_forall is_token_char r1) as Hf1.
  destruct (span is_token_char r1) as [[|a n] [|c2 r2]]; try done.
  destruct c2 as [[] [] [] [] [] [] [] []]; try done.
  pose proof (span_append is_token_char r2) as Ha2.
  pose proof (span_forall is_token_char r2) as Hf2.
  pose proof (span_rest is_token_char r2) as Hr2.
  destruct (span is_token_char r2) as [[|b m] r3]; [done|].
  simpl fst in *; simpl snd in *. intros [= <- <-].
  exists r3. subst topic. rewrite <- Ha1, <- Ha2.
  rewrite !append_cons, !append_nil_l. repeat split; try done.
  destruct r3; [done|]. by eapply Hr2.
Qed.

(** The handler's pattern accepts exactly the topics of [topic_shape]. *)
Lemma parse_topic_shape p topic :
  is_plain p = true →
  is_Some (parse_topic p topic) ↔ topic_shape p topic.
Proof.
  intros Hp. split.
  - intros [[node meas] Hpt].
    destruct (parse_topic_elim _ _ _ _ Hp Hpt) as (rest & -> & Hn & Hm & _).
    by exists node, meas, rest.
  - intros (node & meas & rest & -> & Hn & Hm).
    exists (node, meas +:+ fst (span is_token_char rest)).
    rewrite <- (span_append is_token_char rest) at 1.
    rewrite <- (append_assoc meas).
    apply parse_topic_intro; [done|done| |].
    + apply is_token_app; [done|apply span_forall].
    + pose proof (span_rest is_token_char rest) as Hr.
      destruct (snd (span is_token_char rest)); [done|]. by eapply Hr.
Qed.

(** A topic of the specification's shape is parsed into exactly its
    node and measurement names. *)
Lemma spec_shape_parse p topic :
  is_plain p = true → spec_topic_shape p topic →
  ∃ node meas tail,
    topic = p +:+ "/" +:+ node +:+ "/" +:+ meas +:+ tail ∧
    parse_topic p topic = Some (node, meas) ∧
    (tail = EmptyString ∨ ∃ t, tail = String "/" t).
Proof.
  intros Hp (node & meas & tail & -> & Hn & Hm & Ht).
  exists node, meas, tail. split; [done|]. split; [|done].
  apply parse_topic_intro; try done.
  destruct Ht as [->|[t ->]]; done.
Qed.

End TopicTheory.

(** ** The handler *)

Section Handler.
Context `{Extern}.
Local Open Scope py_scope.

Lemma py_in_spec s l : py_in (PStr s) l = true ↔ s ∈ l.
Proof.
  simpl. rewrite existsb_exists. split.
  - intros (x & Hx & ->%String.eqb_eq). by apply list_elem_of_In.
  - intros Hs. exists s. split; [by apply list_elem_of_In|apply String.eqb_refl].
Qed.

Lemma py_in_false s l : s ∉ l → py_in (PStr s) l = false.
Proof.
  intros Hs. destruct (py_in (PStr s) l) eqn:E; [|done].
  by apply py_in_spec in E.
Qed.

(** [store_msg] neither reads nor changes the heap. *)
Lemma store_msg_heap st n m f h h' w :
  store_msg st n m f (State h w) = with_heap h (store_msg st n m f (State h' w)).
Proof.
  unfold store_msg, with_heap, bind, emit, raise, try_except, call_write_points.
  destruct st as [|c]; simpl; [done|].
  destruct (is_dict f); simpl; [|done].
  destruct (write_points c _ w) as [[[]|e] w']; simpl; [done|].
  destruct (is_ConnectionError e); done.
Qed.

(** Each call of [store_msg] is recorded once, on entry. *)
Lemma store_msg_calls st n m f σ :
  store_calls (store_msg st n m f σ).2 = [StoreMsg st n m f].
Proof.
  unfold store_msg, bind, emit, raise, try_except, call_write_points.
  destruct st as [|c]; simpl; [done|].
  destruct (is_dict f); simpl; [|done].
  destruct (write_points c _ (net σ)) as [[[]|e] w']; simpl; [done|].
  destruct (is_ConnectionError e); done.
Qed.

Lemma for_each_cons {A} (x : A) l (body : A → M unit) σ :
  for_each (x :: l) body σ =
  match body x σ with
  | (Ret _, σ1, t1) => let '(r, σ2, t2) := for_each l body σ1 in (r, σ2, (t1 ++ t2)%list)
  | (Raise e, σ1, t1) => (Raise e, σ1, t1)
  end.
Proof. reflexivity. Qed.

Lemma for_each_store_heap l n m f h h' w :
  for_each l (fun st => store_msg st n m f) (State h w) =
  with_heap h (for_each l (fun st => store_msg st n m f) (State h' w)).
Proof.
  revert h h' w. induction l as [|st l IH]; intros h h' w; [done|].
  rewrite !for_each_cons, (store_msg_heap st n m f h h' w).
  destruct (store_msg st n m f (State h' w)) as [[[[]|e] [h1 w1]] t1]; simpl; [|done].
  rewrite (IH h h1 w1).
  by destruct (for_each l _ (State h1 w1)) as [[r2 [h2 w2]] t2].
Qed.

(** When the loop returns, every store of the list has been called
    once, in the order of the list. *)
Lemma for_each_store_calls l n m f σ :
  (for_each l (fun st => store_msg st n m f) σ).1.1 = Ret tt →
  store_calls (for_each l (fun st => store_msg st n m f) σ).2 =
    (fun st => StoreMsg st n m f) <$> l.
Proof.
  revert σ. induction l as [|st l IH]; intros σ; [done|].
  rewrite for_each_cons. pose proof (store_msg_calls st n m f σ) as Hc.
  destruct (store_msg st n m f σ) as [[[[]|e] σ1] t1]; simpl in *; [|done].
  specialize (IH σ1).
  destruct (for_each l _ σ1) as [[r2 σ2] t2]; simpl in *.
  intros ->. unfold store_calls in *. rewrite List.filter_app, Hc, IH; done.
Qed.

(** The loop call by call: the calls made are those on the first [k]
    stores, the call on the store at index [i] is made in the state
    [σs !! i] and leaves the state [σs !! S i]; every call but the
    last one made returned, and the outcome of the last one made is
    the outcome of the loop. *)
Lemma for_each_store_run l n m f σ :
  ∃ (k : nat) (σs : list state),
    (k ≤ length l)%nat ∧ length σs = S k ∧
    σs !! 0%nat = Some σ ∧
    σs !! k = Some (for_each l (fun st => store_msg st n m f) σ).1.2 ∧
    store_calls (for_each l (fun st => store_msg st n m f) σ).2 =
      (fun st => StoreMsg st n m f) <$> take k l ∧
    ((for_each l (fun st => store_msg st n m f) σ).1.1 = Ret tt → k = length l) ∧
    (k = 0%nat → l = [] ∧ (for_each l (fun st => store_msg st n m f) σ).1.1 = Ret tt) ∧
    (∀ i st σi σi', l !! i = Some st → σs !! i = Some σi → σs !! S i = Some σi' →
       (store_msg st n m f σi).1 =
         (if decide (S i < k)%nat then Ret tt
          else (for_each l (fun st => store_msg st n m f) σ).1.1, σi')).
Proof.
  revert σ. induction l as [|st l IH]; intros σ.
  { exists 0%nat, [σ]. repeat split; try done. }
  rewrite for_each_cons. pose proof (store_msg_calls st n m f σ) as Hc.
  destruct (store_msg st n m f σ) as [[[[]|e] σ1] t1] eqn:Hst; simpl in *.
  - destruct (IH σ1) as (k & σs & Hk & Hlen & H0 & Hlast & Hcalls & Hret & Hzero & Hrun).
    destruct (for_each l _ σ1) as [[r2 σ2] t2]; simpl in *.
    exists (S k), (σ :: σs). split; [lia|]. split; [simpl; lia|].
    split; [done|]. split; [done|]. split.
    { unfold store_calls in *. by rewrite List.filter_app, Hc, Hcalls. }
    split; [intros Hr; by rewrite (Hret Hr)|]. split; [lia|].
    intros [|i] st' σi σi' Hl Hi Hi'; simpl in *.
    + injection Hl as <-. injection Hi as <-. rewrite Hst. simpl.
      rewrite H0 in Hi'. injection Hi' as <-.
      destruct (decide (1 < S k)%nat) as [?|Hn]; [done|].
      destruct Hzero as [_ ->]; [lia|done].
    + rewrite (Hrun i st' σi σi' Hl Hi Hi').
      destruct (decide (S i < k)%nat), (decide (S (S i) < S k)%nat); try lia; done.
  - exists 1%nat, [σ; σ1]. split; [lia|]. split; [done|]. split; [done|].
    split; [done|]. split; [simpl; by rewrite ?take_0|]. split; [done|].
    split; [lia|].
    intros [|i] st' σi σi' Hl Hi Hi'; simpl in *; [|done].
    injection Hl as <-. injection Hi as <-. injection Hi' as <-. by rewrite Hst.
Qed.

(** When a store raises, the loop ends there. *)
Lemma for_each_store_raise l1 st l2 n m f σ e :
  (for_each l1 (fun st => store_msg st n m f) σ).1.1 = Ret tt →
  (store_msg st n m f (for_each l1 (fun st => store_msg st n m f) σ).1.2).1.1 = Raise e →
  (for_each (l1 ++ st :: l2) (fun st => store_msg st n m f) σ).1.1 = Raise e ∧
  store_calls (for_each (l1 ++ st :: l2) (fun st => store_msg st n m f) σ).2 =
    (fun st => StoreMsg st n m f) <$> (l1 ++ [st]).
Proof.
  revert σ. induction l1 as [|s1 l1 IH]; intros σ.
  - simpl app. rewrite for_each_cons. simpl. intros _ Hr.
    pose proof (store_msg_calls st n m f σ) as Hc.
    destruct (store_msg st n m f σ) as [[[[]|e'] σ1] t1]; simpl in *; [done|].
    split; [done|]. done.
  - simpl app. rewrite !for_each_cons.
    pose proof (store_msg_calls s1 n m f σ) as Hc.
    destruct (store_msg s1 n m f σ) as [[[[]|e'] σ1] t1]; simpl in *; [|done].
    specialize (IH σ1).
    destruct (for_each l1 _ σ1) as [[r2 σ2] t2]; simpl in *.
    intros -> Hr. destruct (IH eq_refl Hr) as [IH1 IH2].
    destruct (for_each (l1 ++ st :: l2) _ σ1) as [[r3 σ3] t3]; simpl in *.
    split; [done|]. unfold store_calls in *. by rewrite List.filter_app, Hc, IH2.
Qed.

(** Decoding has no effect besides its result. *)
Lemma coerce_keys_pure keys d σ :
  coerce_keys keys d σ = ((coerce_keys keys d σ).1.1, σ, []).
Proof.
  revert d. induction keys as [|key keys IH]; intros d; [done|].
  simpl. unfold coerce_key. unfold_M.
  destruct (dict_get d key) as [v|]; simpl.
  - destruct (py_float v) as [fl|e]; simpl.
    + rewrite IH. by destruct (coerce_keys keys _ σ) as [[[] ?] ?].
    + destruct (is_ValueError e); [|done].
      rewrite IH. by destruct (coerce_keys keys _ σ) as [[[] ?] ?].
  - done.
Qed.

Lemma decode_single_pure self meas value σ :
  decode_single self meas value σ = ((decode_single self meas value σ).1.1, σ, []).
Proof.
  unfold decode_single. unfold_M.
  destruct (py_in meas (stringify self)); [done|].
  destruct (py_float (payload_val value)) as [fl|e]; [done|].
  by destruct (is_ValueError e).
Qed.

Lemma decode_pure self meas value σ :
  decode self meas value σ = ((decode self meas value σ).1.1, σ, []).
Proof.
  unfold decode. unfold_M.
  destruct (json_loads value) as [v|e]; simpl.
  - destruct v; try (rewrite decode_single_pure; by destruct (decode_single _ _ _ σ) as [[[] ?] ?]).
    rewrite coerce_keys_pure. by destruct (coerce_keys _ _ σ) as [[[] ?] ?].
  - destruct (is_ValueError e); [|done].
    rewrite decode_single_pure. by destruct (decode_single _ _ _ σ) as [[[] ?] ?].
Qed.

(** *** The handler, by cases on the topic *)

Lemma on_message_no_match self msg σ :
  is_plain (topic_prefix self) = true →
  parse_topic (topic_prefix self) (topic msg) = None →
  on_message_at self msg σ =
    Some (Ret tt, σ, [received_debug msg; no_match_warning msg]).
Proof.
  intros Hp Hpt. unfold on_message_at, on_message.
  destruct (topic_regex_plain _ Hp) as [rx Hrx]. rewrite Hrx. simpl.
  rewrite (re_match_topic _ _ _ Hrx), Hpt. done.
Qed.

Lemma on_message_match self msg node meas σ :
  is_plain (topic_prefix self) = true →
  parse_topic (topic_prefix self) (topic msg) = Some (node, meas) →
  on_message_at self msg σ =
    Some (let '(res, σ', t) := forward self (PStr node) (PStr meas) (payload msg) σ in
          (res, σ',
           received_debug msg ::
           (if py_in (PStr node) (node_names self) then []
            else [unknown_node_warning self (PStr node)]) ++ t)).
Proof.
  intros Hp Hpt. unfold on_message_at, on_message.
  destruct (topic_regex_plain _ Hp) as [rx Hrx]. rewrite Hrx. simpl.
  rewrite (re_match_topic _ _ _ Hrx), Hpt. simpl.
  unfold group_val, forward. simpl. unfold_M.
  destruct (existsb (String.eqb node) (node_names self)); simpl;
    rewrite (decode_pure self (PStr meas) (payload msg) σ);
    destruct (decode self (PStr meas) (payload msg) σ) as [[[fields|e] ?] ?]; simpl; try done;
    by destruct (dispatch self (PStr node) (PStr meas) fields σ) as [[? ?] ?].
Qed.

(** The dispatch loop runs over the elements that [_stores] holds when
    the handler reaches it. *)
Lemma dispatch_registered self r n m f σ :
  _stores self = Some r →
  dispatch self n m f σ =
    for_each (default [] (heap σ !! r)) (fun st => store_msg st n m f)
      (after_copy σ (default [] (heap σ !! r))).
Proof.
  intros Hr. unfold dispatch, stores. rewrite Hr. unfold_M. simpl.
  unfold after_copy. rewrite lookup_insert_eq. simpl.
  by destruct (for_each _ _ _) as [[? ?] ?].
Qed.

Lemma dispatch_unregistered self n m f σ :
  _stores self = None → dispatch self n m f σ = (Raise AttributeError, σ, []).
Proof. intros Hr. unfold dispatch, stores. rewrite Hr. done. Qed.
End Handler.

(** ** C2: topics that the pattern does not accept *)

(** C2, as amended.  For a prefix without special characters, a topic no
    initial segment of which is [<prefix>/<token>/<token>] is dropped: the
    handler logs the warning and returns, the state is unchanged and no
    store is called. *)
Theorem C2_unmatched_topic_dropped `{Extern} (self : MQTTSource) (msg : MQTTMessage)
    (σ : state) :
  is_plain (topic_prefix self) = true →
  ¬ topic_shape (topic_prefix self) (topic msg) →
  on_message_at self msg σ =
    Some (Ret tt, σ, [received_debug msg; no_match_warning msg]).
Proof.
  intros Hp Hshape. apply on_message_no_match; [done|].
  destruct (parse_topic _ _) as [nm|] eqn:Hpt; [|done].
  exfalso. apply Hshape, (parse_topic_shape _ _ Hp). by rewrite Hpt.
Qed.

(** ** C8: nodes outside the allow-list *)

Lemma forward_decoded `{Extern} self n m value σ :
  forward self n m value σ =
  match (decode self m value σ).1.1 with
  | Ret fields => dispatch self n m fields σ
  | Raise e => (Raise e, σ, [])
  end.
Proof.
  unfold forward. unfold_M. rewrite decode_pure. cbn [fst snd].
  destruct (decode self m value σ).1.1 as [fields|e]; [|done].
  by destruct (dispatch self n m fields σ) as [[? ?] ?].
Qed.

(** C8.  For a prefix without special characters, a topic of the
    expected shape whose node name is not in the allow-list is parsed into
    its node and measurement names; the handler logs the warning and then
    decodes and dispatches as for a listed node.  When the decoding
    raises, the handler raises with it and no store is called.  When the
    decoding returns, the registered stores are called in registration
    order with these names and the decoded fields, up to and including
    the first whose call raises: the calls made are those on the first
    [k] stores, every call but the last one made returned, the outcome
    of the last one made is the outcome of the handler, the first
    registered store is always called, and all of them are called when
    the handler returns. *)
Theorem C8_unknown_node_forwarded `{Extern} (self : MQTTSource) (msg : MQTTMessage)
    (node meas rest : string) (σ : state) :
  is_plain (topic_prefix self) = true →
  topic msg = topic_prefix self +:+ "/" +:+ node +:+ "/" +:+ meas +:+ rest →
  is_token node = true → is_token meas = true → ends_token rest →
  node ∉ node_names self →
  ∃ out, on_message_at self msg σ = Some out ∧
    (let '(res, σ', t) := forward self (PStr node) (PStr meas) (payload msg) σ in
     out = (res, σ', received_debug msg :: unknown_node_warning self (PStr node) :: t)) ∧
    match (decode self (PStr meas) (payload msg) σ).1.1 with
    | Raise e =>
        out = (Raise e, σ, [received_debug msg; unknown_node_warning self (PStr node)])
    | Ret fields =>
        ∀ r l, _stores self = Some r → heap σ !! r = Some l →
        ∃ (k : nat) (σs : list state),
          (k ≤ length l)%nat ∧ length σs = S k ∧
          σs !! 0%nat = Some (after_copy σ l) ∧ σs !! k = Some out.1.2 ∧
          store_calls out.2 =
            (fun st => StoreMsg st (PStr node) (PStr meas) fields) <$> take k l ∧
          (out.1.1 = Ret tt → k = length l) ∧
          (l ≠ [] → (0 < k)%nat) ∧
          (∀ i st σi σi', l !! i = Some st → σs !! i = Some σi → σs !! S i = Some σi' →
             (store_msg st (PStr node) (PStr meas) fields σi).1 =
               (if decide (S i < k)%nat then Ret tt else out.1.1, σi'))
    end.
Proof.
  intros Hp Htopic Hn Hm Hrest Hnode.
  assert (Hpt : parse_topic (topic_prefix self) (topic msg) = Some (node, meas)).
  { rewrite Htopic. by apply parse_topic_intro. }
  rewrite (on_message_match _ _ _ _ σ Hp Hpt), (py_in_false _ _ Hnode).
  eexists. split; [done|]. split.
  { by destruct (forward _ _ _ _ σ) as [[? ?] ?]. }
  rewrite forward_decoded.
  destruct (decode self (PStr meas) (payload msg) σ).1.1 as [fields|e] eqn:Hdec; [|done].
  intros r l Hr Hl. rewrite (dispatch_registered _ r) by done. rewrite Hl. simpl default.
  destruct (for_each_store_run l (PStr node) (PStr meas) fields (after_copy σ l))
    as (k & σs & Hk & Hlen & H0 & Hlast & Hcalls & Hret & Hzero & Hrun).
  destruct (for_each l _ (after_copy σ l)) as [[res σ'] t]. simpl in *.
  exists k, σs. repeat (split; [done|]). split; [|done].
  intros Hne. destruct k; [|lia]. by destruct Hzero.
Qed.

(** ** C5, C3: failures of a store *)

Section StoreFailures.
Context `{Extern}.
Local Open Scope py_scope.

Lemma store_msg_write_raises c n m d σ e w' :
  write_points c [influx_msg n m (PDict d)] (net σ) = (Raise e, w') →
  store_msg (InfluxStore c) n m (PDict d) σ =
    if is_ConnectionError e
    then (Ret tt, State (heap σ) w',
          write_trace c n m d ++ [LogException "forwarder.InfluxStore" e])
    else (Raise e, State (heap σ) w', write_trace c n m d).
Proof.
  intros Hw. unfold store_msg, call_write_points. unfold_M. simpl.
  rewrite Hw. by destruct (is_ConnectionError e).
Qed.

Lemma store_msg_write_ok c n m d σ w' :
  write_points c [influx_msg n m (PDict d)] (net σ) = (Ret tt, w') →
  store_msg (InfluxStore c) n m (PDict d) σ =
    (Ret tt, State (heap σ) w', write_trace c n m d).
Proof.
  intros Hw. unfold store_msg, call_write_points. unfold_M. simpl.
  by rewrite Hw.
Qed.

Lemma bind_ret_l {A B} (m : M A) (k : A → M B) σ a σ1 t1 :
  m σ = (Ret a, σ1, t1) →
  bind m k σ = (let '(r, σ2, t2) := k a σ1 in (r, σ2, t1 ++ t2)).
Proof. intros Hm. unfold bind. by rewrite Hm. Qed.
End StoreFailures.

(** C5, as amended.  When the write of an [InfluxStore] fails with a
    connection error, [store_msg] logs the exception and returns; the
    store is as before, so the call that follows runs exactly as it would
    on its own after that write. *)
Theorem C5_connection_error_caught `{Extern} (c : nat) (n m : pyval) (d : dict)
    (σ : state) (e : exn) (w' : world) :
  write_points c [influx_msg n m (PDict d)] (net σ) = (Raise e, w') →
  is_ConnectionError e = true →
  let t1 := write_trace c n m d ++ [LogException "forwarder.InfluxStore" e] in
  store_msg (InfluxStore c) n m (PDict d) σ = (Ret tt, State (heap σ) w', t1) ∧
  ∀ st n2 m2 f2,
    bind (store_msg (InfluxStore c) n m (PDict d)) (fun _ => store_msg st n2 m2 f2) σ =
    (let '(r, σ2, t2) := store_msg st n2 m2 f2 (State (heap σ) w') in (r, σ2, t1 ++ t2)).
Proof.
  intros Hw He t1.
  assert (Hs : store_msg (InfluxStore c) n m (PDict d) σ = (Ret tt, State (heap σ) w', t1)).
  { rewrite (store_msg_write_raises _ _ _ _ _ _ _ Hw), He. done. }
  split; [exact Hs|]. intros st n2 m2 f2. by rewrite (bind_ret_l _ _ _ _ _ _ Hs).
Qed.

(** C3, as amended.  With two stores registered, the dispatch calls
    both, in registration order and with the same fields, whenever the
    call of the first returns, and then ends as the call of the second
    does.  The call of an [InfluxStore] returns also when its write
    fails with a connection error. *)
Theorem C3_two_stores_in_order `{Extern} (self : MQTTSource) (r : loc) (s1 s2 : store)
    (n m f : pyval) (σ : state) :
  _stores self = Some r →
  heap σ !! r = Some [s1; s2] →
  let σ0 := after_copy σ [s1; s2] in
  ((store_msg s1 n m f σ0).1.1 = Ret tt →
   (dispatch self n m f σ).1.1 = (store_msg s2 n m f (store_msg s1 n m f σ0).1.2).1.1 ∧
   store_calls (dispatch self n m f σ).2 = [StoreMsg s1 n m f; StoreMsg s2 n m f]) ∧
  (∀ c d e w',
     s1 = InfluxStore c → f = PDict d →
     write_points c [influx_msg n m f] (net σ) = (Raise e, w') →
     is_ConnectionError e = true →
     LogException "forwarder.InfluxStore" e ∈ (dispatch self n m f σ).2 ∧
     store_calls (dispatch self n m f σ).2 = [StoreMsg s1 n m f; StoreMsg s2 n m f]).
Proof.
  intros Hr Hl σ0.
  assert (Hd : dispatch self n m f σ =
               for_each [s1; s2] (fun st => store_msg st n m f) σ0).
  { rewrite (dispatch_registered _ r) by done. by rewrite Hl. }
  assert (Hret : ∀ σ1 t1, store_msg s1 n m f σ0 = (Ret tt, σ1, t1) →
            (dispatch self n m f σ).1.1 = (store_msg s2 n m f σ1).1.1 ∧
            (dispatch self n m f σ).2 = t1 ++ (store_msg s2 n m f σ1).2 ∧
            store_calls (dispatch self n m f σ).2 = [StoreMsg s1 n m f; StoreMsg s2 n m f]).
  { intros σ1 t1 H1. rewrite Hd, for_each_cons, H1. cbn beta iota.
    rewrite for_each_cons.
    pose proof (store_msg_calls s1 n m f σ0) as Hc1. rewrite H1 in Hc1.
    pose proof (store_msg_calls s2 n m f σ1) as Hc2.
    destruct (store_msg s2 n m f σ1) as [[[[]|e2] σ2] t2]; simpl in *.
    - split; [done|]. split; [by rewrite app_nil_r|].
      unfold store_calls in *. by rewrite app_nil_r, List.filter_app, Hc1, Hc2.
    - split; [done|]. split; [done|].
      unfold store_calls in *. by rewrite List.filter_app, Hc1, Hc2. }
  split.
  - intros H1. destruct (store_msg s1 n m f σ0) as [[r1 σ1] t1] eqn:E1.
    simpl in H1. subst r1. destruct (Hret σ1 t1 eq_refl) as (? & _ & ?). done.
  - intros c d e w' -> -> Hw He.
    assert (H1 : store_msg (InfluxStore c) n m (PDict d) σ0 =
                 (Ret tt, State (heap σ0) w',
                  write_trace c n m d ++ [LogException "forwarder.InfluxStore" e])).
    { rewrite (store_msg_write_raises c n m d σ0 e w') by done. by rewrite He. }
    destruct (Hret _ _ H1) as (_ & Ht & Hc). split; [|done].
    rewrite Ht. apply elem_of_app. left. apply elem_of_app. right. apply list_elem_of_singleton. done.
Qed.

(** ** C9, C10: the list of registered stores *)

Section Registered.
Context `{Extern}.

Lemma register_store_first self st σ :
  _stores self = None →
  register_store self st σ =
    (Ret (set_stores self (fresh (dom (heap σ)))),
     State (<[fresh (dom (heap σ)) := [st]]> (heap σ)) (net σ), []).
Proof.
  intros Hs. unfold register_store. rewrite Hs. unfold_M. simpl.
  by rewrite lookup_insert_eq, insert_insert_eq.
Qed.

Lemma register_store_next self st σ r l :
  _stores self = Some r → heap σ !! r = Some l →
  register_store self st σ =
    (Ret self, State (<[r := l ++ [st]]> (heap σ)) (net σ), []).
Proof.
  intros Hs Hl. unfold register_store. rewrite Hs. unfold_M. simpl.
  by rewrite Hl.
Qed.

(** Registering appends, in order, and keeps duplicates. *)
Lemma register_all_next sts self σ r l :
  _stores self = Some r → heap σ !! r = Some l →
  register_all self sts σ =
    (Ret self, State (<[r := l ++ sts]> (heap σ)) (net σ), []).
Proof.
  revert σ l. induction sts as [|st sts IH]; intros σ l Hs Hl; simpl.
  - rewrite app_nil_r, insert_id by done. by destruct σ.
  - unfold bind. rewrite (register_store_next _ _ _ _ _ Hs Hl).
    rewrite (IH _ (l ++ [st])); [|done|by simpl; rewrite lookup_insert_eq].
    simpl. by rewrite insert_insert_eq, <- app_assoc.
Qed.

Lemma register_all_first st sts self σ :
  _stores self = None →
  register_all self (st :: sts) σ =
    (Ret (set_stores self (fresh (dom (heap σ)))),
     State (<[fresh (dom (heap σ)) := st :: sts]> (heap σ)) (net σ), []).
Proof.
  intros Hs. simpl. unfold bind. rewrite (register_store_first _ _ _ Hs).
  rewrite (register_all_next sts _ _ (fresh (dom (heap σ))) [st]);
    [|done|by simpl; rewrite lookup_insert_eq].
  simpl. by rewrite insert_insert_eq.
Qed.

Lemma fresh_loc_unused (h : gmap loc (list store)) : h !! fresh (dom h) = None.
Proof. apply not_elem_of_dom, is_fresh. Qed.


End Registered.


(** A source on which nothing has been registered has no [_stores]
    attribute, and the dispatch raises when it reads [stores]. *)
Lemma on_message_unregistered `{Extern} self msg node meas fields σ :
  is_plain (topic_prefix self) = true →
  parse_topic (topic_prefix self) (topic msg) = Some (node, meas) →
  _stores self = None →
  decode self (PStr meas) (payload msg) σ = (Ret fields, σ, []) →
  ∃ t, on_message_at self msg σ = Some (Raise AttributeError, σ, t) ∧ store_calls t = [].
Proof.
  intros Hp Hpt Hs Hd. rewrite (on_message_match _ _ _ _ σ Hp Hpt).
  rewrite forward_decoded, Hd. simpl. rewrite (dispatch_unregistered _ _ _ _ _ Hs).
  eexists. split; [done|]. by destruct (existsb _ _).
Qed.

(** ** C1: JSON objects *)

(** ** C4, C7: payloads that are not JSON objects *)

(** ** C6: the stored prefix *)

(** ** Decoding *)

Section Decoding.
Context `{Extern}.

(** A payload that [json.loads] rejects, or that decodes to something
    other than an object, is handled as a single value. *)
Lemma decode_not_object self meas value σ :
  match json_loads value with
  | Ret v => is_dict v = false
  | Raise e => is_ValueError e = true
  end →
  decode self meas value σ = decode_single self meas value σ.
Proof.
  unfold decode. unfold_M.
  destruct (json_loads value) as [v|e]; simpl.
  - intros Hv. destruct v; try discriminate;
      by destruct (decode_single _ _ _ σ) as [[[] ?] ?].
  - intros ->. by destruct (decode_single _ _ _ σ) as [[[] ?] ?].
Qed.

(** For a measurement in the stringify list the value is [str] of the
    payload, whatever the payload is. *)
Lemma decode_single_stringify self meas value σ :
  py_in meas (stringify self) = true →
  decode_single self meas value σ = (Ret (PDict [("value", PStr (py_str value))]), σ, []).
Proof. intros Hin. unfold decode_single. rewrite Hin. reflexivity. Qed.

(** Otherwise it is the number the payload denotes, or the payload
    itself when it denotes none. *)
Lemma decode_single_coerce self meas value σ :
  py_in meas (stringify self) = false →
  decode_single self meas value σ =
    (Ret (PDict [("value",
                  match py_float (payload_val value) with
                  | Ret f => PFloat f
                  | Raise _ => payload_val value
                  end)]), σ, []).
Proof.
  intros Hin. unfold decode_single. rewrite Hin. unfold_M.
  destruct value as [s|s]; simpl.
  - by destruct (float_of_str s).
  - by destruct (float_of_bytes s).
Qed.

(** A text payload (Python 2) that is neither JSON nor a number decodes
    to itself, in the stringify list or not. *)
Lemma decode_text_fallback self meas s σ e :
  json_loads (Text s) = Raise e → is_ValueError e = true →
  float_of_str s = None →
  decode self meas (Text s) σ = (Ret (PDict [("value", PStr s)]), σ, []).
Proof.
  intros Hj He Hf. rewrite decode_not_object by (by rewrite Hj).
  destruct (py_in meas (stringify self)) eqn:Hin.
  - by rewrite decode_single_stringify.
  - rewrite decode_single_coerce by done. simpl. by rewrite Hf.
Qed.


Lemma dict_get_app d1 key v d2 :
  key ∉ dict_keys d1 → dict_get (d1 ++ (key, v) :: d2) key = Some v.
Proof.
  induction d1 as [|[k w] d1 IH]; simpl.
  - intros _. by rewrite String.eqb_refl.
  - intros Hk. apply not_elem_of_cons in Hk as [Hne Hk].
    destruct (String.eqb_spec k key); [congruence|]. by apply IH.
Qed.

Lemma dict_set_app d1 key v v' d2 :
  key ∉ dict_keys d1 →
  dict_set (d1 ++ (key, v) :: d2) key v' = d1 ++ (key, v') :: d2.
Proof.
  induction d1 as [|[k w] d1 IH]; simpl.
  - intros _. by rewrite String.eqb_refl.
  - intros Hk. apply not_elem_of_cons in Hk as [Hne Hk].
    destruct (String.eqb_spec k key); [congruence|]. by rewrite IH.
Qed.

Lemma coerce_keys_coerced d1 d2 σ :
  NoDup (dict_keys (d1 ++ d2)) →
  Forall (fun kv => coercible kv.2) d2 →
  coerce_keys (dict_keys d2) (d1 ++ d2) σ =
    (Ret (d1 ++ (prod_map id coerced <$> d2)), σ, []).
Proof.
  revert d1. induction d2 as [|[key v] d2 IH]; intros d1 Hnd Hall.
  - simpl. by rewrite !app_nil_r.
  - inversion Hall as [|? ? Hv Hall']; subst. simpl in Hv.
    assert (Hk : key ∉ dict_keys d1).
    { unfold dict_keys in *. rewrite fmap_app in Hnd. simpl in Hnd.
      apply NoDup_app in Hnd as (_ & Hdisj & _). intros Hin.
      apply (Hdisj key Hin). by left. }
    simpl. unfold bind, coerce_key. unfold_M.
    rewrite (dict_get_app _ _ _ _ Hk). simpl.
    unfold coercible in Hv. unfold coerced at 1.
    assert (Hnd' : ∀ w, NoDup (dict_keys ((d1 ++ [(key, w)]) ++ d2))).
    { intros w. rewrite <- app_assoc. simpl.
      unfold dict_keys in *. rewrite fmap_app in *. exact Hnd. }
    destruct (py_float v) as [fl|e]; simpl.
    + rewrite (dict_set_app _ _ _ _ _ Hk).
      rewrite (cons_middle (key, PFloat fl) d1 d2), app_assoc.
      rewrite (IH _ (Hnd' _) Hall'). by rewrite <- app_assoc.
    + rewrite Hv.
      rewrite (cons_middle (key, v) d1 d2), app_assoc.
      rewrite (IH _ (Hnd' _) Hall'). by rewrite <- app_assoc.
Qed.

(** A JSON object whose values are numbers, truth values or texts
    decodes to the object with every value on which [float] succeeds
    replaced by the number, and the others unchanged. *)
Lemma decode_object_coerced self meas value d σ :
  json_loads value = Ret (PDict d) →
  NoDup (dict_keys d) →
  Forall (fun kv => coercible kv.2) d →
  decode self meas value σ = (Ret (PDict (prod_map id coerced <$> d)), σ, []).
Proof.
  intros Hj Hnd Hall. unfold decode. unfold_M. rewrite Hj. simpl.
  pose proof (coerce_keys_coerced [] d σ Hnd Hall) as Hc. simpl in Hc.
  by rewrite Hc.
Qed.

(** A [None], list or object among the values ends the handler: the
    first such value makes the loop raise [TypeError]. *)
Lemma coerce_key_type_error d key v σ :
  dict_get d key = Some v →
  py_float v = Raise TypeError →
  coerce_key d key σ = (Raise TypeError, σ, []).
Proof.
  intros Hg Hf. unfold coerce_key. unfold_M. by rewrite Hg, Hf.
Qed.
End Decoding.

(** ** The stored prefix *)

Lemma endswith_char_cons a s c :
  s ≠ EmptyString → endswith_char (String a s) c = endswith_char s c.
Proof. by destruct s. Qed.

Lemma drop_last_cons a s : s ≠ EmptyString → drop_last (String a s) = String a (drop_last s).
Proof. by destruct s. Qed.

Lemma startswith_cons a s c : startswith_char (String a s) c = Ascii.eqb a c.
Proof. reflexivity. Qed.

(** The normalisation behaves as intended on a prefix with at most one
    trailing slash. *)
Lemma normalize_prefix_one_slash p :
  (endswith_char p "/" = true → endswith_char (drop_last p) "/" = false) →
  normalize_prefix p = EmptyString ∨
  (startswith_char (normalize_prefix p) "/" = true ∧
   endswith_char (normalize_prefix p) "/" = false).
Proof.
  destruct p as [|a p]; [by left|]. intros Hone. unfold normalize_prefix.
  rewrite startswith_cons.
  destruct (Ascii.eqb_spec a "/") as [->|Hne]; simpl negb; cbv iota.
  - destruct (endswith_char (String "/" p) "/") eqn:He.
    + destruct p as [|b p]; [by left|]. right.
      rewrite drop_last_cons by done. rewrite startswith_cons. split; [done|].
      rewrite <- (drop_last_cons "/") by done. by apply Hone.
    + right. by rewrite startswith_cons.
  - change ("/" +:+ String a p) with (String "/" (String a p)).
    rewrite endswith_char_cons by done.
    destruct (endswith_char (String a p) "/") eqn:He.
    + right. rewrite drop_last_cons by done. rewrite startswith_cons. split; [done|].
      destruct p as [|b p].
      * simpl in He. apply Ascii.eqb_eq in He. congruence.
      * rewrite endswith_char_cons; [by apply Hone|].
        rewrite drop_last_cons by done. done.
    + right. rewrite startswith_cons. split; [done|].
      by rewrite endswith_char_cons.
Qed.

(** Registering a store and handling a message leave the prefix as
    [__init__] stored it. *)
Lemma register_store_prefix `{Extern} self st σ :
  match (register_store self st σ).1.1 with
  | Ret self' => topic_prefix self' = topic_prefix self
  | Raise _ => False
  end.
Proof.
  unfold register_store. destruct (_stores self); unfold_M; simpl; done.
Qed.

(** * Further properties of the program *)

(** ** The prefix *)

Lemma normalize_prefix_fixed q :
  startswith_char q "/" = true → endswith_char q "/" = false →
  normalize_prefix q = q.
Proof.
  intros Hs He. destruct q as [|a q]; [done|].
  unfold normalize_prefix. rewrite Hs. cbn [negb]. cbv zeta iota. by rewrite He.
Qed.

Lemma normalize_prefix_empty_or_slash p :
  normalize_prefix p = EmptyString ∨ startswith_char (normalize_prefix p) "/" = true.
Proof.
  destruct (normalize_prefix p) as [|a q] eqn:Hq; [by left|]. right.
  destruct p as [|b p]; [done|]. unfold normalize_prefix in Hq.
  rewrite startswith_cons in Hq.
  destruct (Ascii.eqb_spec b "/") as [->|Hne]; simpl negb in Hq; cbv iota zeta in Hq.
  - destruct (endswith_char (String "/" p) "/").
    + destruct p as [|c p]; [done|]. rewrite drop_last_cons in Hq by done.
      by injection Hq as <- _.
    + by injection Hq as <- _.
  - change ("/" +:+ String b p) with (String "/" (String b p)) in Hq.
    destruct (endswith_char (String "/" (String b p)) "/").
    + rewrite drop_last_cons in Hq by done. by injection Hq as <- _.
    + by injection Hq as <- _.
Qed.

(** X1.  For every configured prefix the stored prefix is empty or
    starts with a slash, and it is empty exactly when the configured
    prefix is empty or a single slash. *)
Theorem stored_prefix_leading_slash (p : string) :
  (normalize_prefix p = EmptyString ∨ startswith_char (normalize_prefix p) "/" = true) ∧
  (normalize_prefix p = EmptyString ↔ p = EmptyString ∨ p = "/").
Proof.
  destruct p as [|a p].
  { split; [by left|]. split; [by left|done]. }
  unfold normalize_prefix. rewrite startswith_cons.
  destruct (Ascii.eqb_spec a "/") as [->|Hne]; simpl negb; cbv iota.
  - destruct p as [|b p].
    + simpl. split; [by left|]. split; [by right|done].
    + destruct (endswith_char (String "/" (String b p)) "/").
      * rewrite drop_last_cons by done. split; [by right|].
        split; [done|]. intros [|]; done.
      * split; [by right|]. split; [done|]. intros [|]; done.
  - change ("/" +:+ String a p) with (String "/" (String a p)).
    destruct (endswith_char (String "/" (String a p)) "/").
    + rewrite drop_last_cons by done. split; [by right|].
      split; [done|]. intros [|[= ? ?]]; [done|]. congruence.
    + split; [by right|]. split; [done|]. intros [|[= ? ?]]; [done|]. congruence.
Qed.

(** X2.  On a prefix with at most one trailing slash the normalisation
    is idempotent: what it stores, it would store again. *)
Theorem normalize_prefix_idempotent (p : string) :
  (endswith_char p "/" = true → endswith_char (drop_last p) "/" = false) →
  normalize_prefix (normalize_prefix p) = normalize_prefix p.
Proof.
  intros Hone. destruct (normalize_prefix_one_slash p Hone) as [->|[Hs He]]; [done|].
  by apply normalize_prefix_fixed.
Qed.

(** ** The stores *)

Section StoreProperties.
Context `{Extern}.

Lemma influx_store_writes c n m data σ :
  is_dict data = true →
  writes (store_msg (InfluxStore c) n m data σ).2 = [WritePoints c [influx_msg n m data]].
Proof.
  intros Hd. unfold store_msg, call_write_points. unfold_M. rewrite Hd. simpl.
  destruct (write_points c _ (net σ)) as [[[]|e] w']; simpl; [done|].
  destruct (is_ConnectionError e); done.
Qed.

(** X3.  A call of [InfluxStore.store_msg] with a dictionary makes exactly
    one call of [write_points], with the one point built from its
    arguments, whether the write succeeds, fails with a connection error
    or fails otherwise: there is no second attempt.  With anything else
    than a dictionary it raises [ValueError] before it logs or writes,
    and the state is unchanged. *)
Theorem influx_store_one_write (c : nat) (n m data : pyval) (σ : state) :
  if is_dict data
  then writes (store_msg (InfluxStore c) n m data σ).2 =
         [WritePoints c [influx_msg n m data]] ∧
       heap (store_msg (InfluxStore c) n m data σ).1.2 = heap σ ∧
       net (store_msg (InfluxStore c) n m data σ).1.2 =
         (write_points c [influx_msg n m data] (net σ)).2
  else store_msg (InfluxStore c) n m data σ =
         (Raise ValueError, σ, [StoreMsg (InfluxStore c) n m data]).
Proof.
  unfold store_msg, call_write_points. unfold_M.
  destruct (is_dict data); simpl; [|done].
  destruct (write_points c _ (net σ)) as [[[]|e] w']; simpl; [done|].
  destruct (is_ConnectionError e); done.
Qed.

Lemma for_each_store_prefix l n m f σ :
  ∃ k, (k ≤ length l)%nat ∧
    store_calls (for_each l (fun st => store_msg st n m f) σ).2 =
      (fun st => StoreMsg st n m f) <$> take k l ∧
    ((for_each l (fun st => store_msg st n m f) σ).1.1 = Ret tt → k = length l) ∧
    (∀ e, (for_each l (fun st => store_msg st n m f) σ).1.1 = Raise e →
          (0 < k)%nat).
Proof.
  revert σ. induction l as [|st l IH]; intros σ.
  { exists 0. repeat split; simpl; try done. }
  rewrite for_each_cons. pose proof (store_msg_calls st n m f σ) as Hc.
  destruct (store_msg st n m f σ) as [[[[]|e] σ1] t1]; simpl in *.
  - destruct (IH σ1) as (k & Hk & Hcalls & Hret & Hraise).
    destruct (for_each l _ σ1) as [[r2 σ2] t2]; simpl in *.
    exists (S k). split; [lia|]. split.
    + unfold store_calls in *. by rewrite List.filter_app, Hc, Hcalls.
    + split; [intros Hr; by rewrite (Hret Hr)|].
      intros e He. lia.
  - exists 1. split; [lia|]. split; [simpl; by rewrite ?take_0|].
    split; [done|]. intros e' _. lia.
Qed.

Lemma for_each_store_final_heap l n m f h w :
  heap (for_each l (fun st => store_msg st n m f) (State h w)).1.2 = h.
Proof. by rewrite (for_each_store_heap l n m f h ∅ w). Qed.

(** X4.  The dispatch calls the registered stores in registration order
    and stops at the first call that raises.  The calls made are those on
    the first [k] stores of the registered list, each on the state that
    the call before it left, the first on the state after the copy of the
    list.  Every call but the last one made returned, and the last one
    made has the outcome of the dispatch: so the dispatch returns only
    when every store has been called and has returned, and when it raises
    it raises what the last store called raised, and the stores after
    that one are not called. *)
Theorem dispatch_calls_initial_segment (self : MQTTSource) (r : loc) (l : list store)
    (n m f : pyval) (σ : state) :
  _stores self = Some r → heap σ !! r = Some l →
  ∃ (k : nat) (σs : list state),
    (k ≤ length l)%nat ∧ length σs = S k ∧
    σs !! 0%nat = Some (after_copy σ l) ∧ σs !! k = Some (dispatch self n m f σ).1.2 ∧
    store_calls (dispatch self n m f σ).2 = (fun st => StoreMsg st n m f) <$> take k l ∧
    ((dispatch self n m f σ).1.1 = Ret tt → k = length l) ∧
    (∀ e, (dispatch self n m f σ).1.1 = Raise e → (0 < k)%nat) ∧
    (∀ i st σi σi', l !! i = Some st → σs !! i = Some σi → σs !! S i = Some σi' →
       (store_msg st n m f σi).1 =
         (if decide (S i < k)%nat then Ret tt else (dispatch self n m f σ).1.1, σi')).
Proof.
  intros Hs Hl. rewrite (dispatch_registered _ r) by done. rewrite Hl. simpl default.
  destruct (for_each_store_run l n m f (after_copy σ l))
    as (k & σs & Hk & Hlen & H0 & Hlast & Hcalls & Hret & Hzero & Hrun).
  exists k, σs. repeat (split; [done|]). split; [|done].
  intros e He. destruct k; [|lia]. destruct Hzero as [_ Hz]; [done|]. congruence.
Qed.

(** X5.  After [register_store] has been called for each element of a
    non-empty list on a new source, the list of the source holds these
    stores, and a dispatch that returns has called exactly them, in the
    order of registration and as often as they were registered. *)
Theorem registered_stores_called (names : list string) (p : string) (sfy : list string)
    (sts : list store) (n m f : pyval) (σ0 : state) :
  sts ≠ [] →
  ∃ self σ r,
    register_all (MQTTSource_init names p sfy) sts σ0 = (Ret self, σ, []) ∧
    _stores self = Some r ∧ heap σ !! r = Some sts ∧
    ((dispatch self n m f σ).1.1 = Ret tt →
     store_calls (dispatch self n m f σ).2 = (fun st => StoreMsg st n m f) <$> sts).
Proof.
  intros Hne. destruct sts as [|st sts]; [done|].
  set (r := fresh (dom (heap σ0))).
  set (σ := State (<[r := st :: sts]> (heap σ0)) (net σ0)).
  exists (set_stores (MQTTSource_init names p sfy) r), σ, r.
  assert (Hr : heap σ !! r = Some (st :: sts)) by apply lookup_insert_eq.
  split; [by apply register_all_first|]. split; [done|]. split; [done|].
  rewrite (dispatch_registered _ r) by done. rewrite Hr. simpl default.
  apply for_each_store_calls.
Qed.
End StoreProperties.

(** ** The decoder *)

Section DecoderProperties.
Context `{Extern}.

Lemma py_float_raises v e :
  py_float v = Raise e → e = ValueError ∨ e = TypeError ∨ e = OverflowError.
Proof.
  destruct v; simpl; try (intros [= <-]; auto); try done.
  - destruct (float_of_int z); [done|]. intros [= <-]; auto.
  - destruct (float_of_str s); [done|]. intros [= <-]; auto.
  - destruct (float_of_bytes s); [done|]. intros [= <-]; auto.
Qed.

Lemma decode_single_returns self meas value σ :
  ∃ x, decode_single self meas value σ = (Ret (PDict [("value", x)]), σ, []).
Proof.
  destruct (py_in meas (stringify self)) eqn:Hin; eexists.
  - by apply decode_single_stringify.
  - by apply decode_single_coerce.
Qed.

(** X6.  For a measurement name that is a non-empty string, as the
    handler extracts it from the topic, a payload handled as a single
    value always decodes, to a dictionary with the one key [value]: for a
    measurement of the stringify list the value is [str] of the payload;
    otherwise it is the number when [float] accepts the payload and the
    payload itself when [float] raises [ValueError]. *)
Theorem decode_single_value (self : MQTTSource) (meas : string) (value : raw_payload)
    (σ : state) :
  meas ≠ EmptyString →
  ∃ x, decode_single self (PStr meas) value σ = (Ret (PDict [("value", x)]), σ, []) ∧
    if py_in (PStr meas) (stringify self) then x = PStr (py_str value)
    else match py_float (payload_val value) with
         | Ret f => x = PFloat f
         | Raise e => e = ValueError ∧ x = payload_val value
         end.
Proof.
  intros _. destruct (py_in (PStr meas) (stringify self)) eqn:Hin.
  - eexists. split; [by apply decode_single_stringify|done].
  - eexists. split; [by apply decode_single_coerce|].
    destruct value as [s|s]; simpl.
    + by destruct (float_of_str s).
    + by destruct (float_of_bytes s).
Qed.

Lemma dict_get_keys d key : is_Some (dict_get d key) ↔ key ∈ dict_keys d.
Proof.
  induction d as [|[k v] d IH]; simpl.
  - split; [by intros [? ?]|by intros ?%elem_of_nil].
  - rewrite elem_of_cons. destruct (String.eqb_spec k key) as [->|Hne].
    + split; [by left|by eexists].
    + rewrite IH. split; [by right|]. intros [?|?]; [congruence|done].
Qed.

Lemma entry_coerced_refl a : entry_coerced a a.
Proof. split; [done|by left]. Qed.

Lemma entry_coerced_trans a b c :
  entry_coerced a b → entry_coerced b c → entry_coerced a c.
Proof.
  intros [Hk1 Hv1] [Hk2 Hv2]. split; [congruence|].
  destruct Hv2 as [Hv2|[f ->]]; [|right; by eexists].
  rewrite Hv2. exact Hv1.
Qed.

Lemma Forall2_entry_coerced_refl (d : dict) : Forall2 entry_coerced d d.
Proof. induction d; constructor; [apply entry_coerced_refl|done]. Qed.

Lemma Forall2_entry_coerced_trans (d1 d2 d3 : dict) :
  Forall2 entry_coerced d1 d2 → Forall2 entry_coerced d2 d3 →
  Forall2 entry_coerced d1 d3.
Proof.
  intros H12. revert d3. induction H12 as [|???? Hab H12 IH]; intros d3 H23.
  - by inversion H23.
  - inversion H23 as [|???? Hbc H23']; subst.
    constructor; [by eapply entry_coerced_trans|by apply IH].
Qed.

Lemma Forall2_entry_coerced_keys (d1 d2 : dict) :
  Forall2 entry_coerced d1 d2 → dict_keys d2 = dict_keys d1.
Proof.
  induction 1 as [|???? [Hk _] _ IH]; [done|].
  unfold dict_keys in *. simpl. rewrite Hk. f_equal. exact IH.
Qed.

Lemma dict_set_entry_coerced d key f :
  Forall2 entry_coerced d (dict_set d key (PFloat f)) ∨ key ∉ dict_keys d.
Proof.
  induction d as [|[k v] d IH]; simpl.
  - right. apply not_elem_of_nil.
  - destruct (String.eqb_spec k key) as [->|Hne].
    + left. constructor; [|apply Forall2_entry_coerced_refl].
      split; [done|]. right. by eexists.
    + destruct IH as [IH|IH].
      * left. constructor; [apply entry_coerced_refl|done].
      * right. rewrite not_elem_of_cons. done.
Qed.

(** The loop over the keys either returns the dictionary with some
    values replaced by numbers, or raises the exception of [float]. *)
Lemma coerce_keys_outcome keys d σ :
  keys ⊆ dict_keys d →
  match (coerce_keys keys d σ).1.1 with
  | Ret d' => Forall2 entry_coerced d d'
  | Raise e => e = TypeError ∨ e = OverflowError
  end.
Proof.
  revert d. induction keys as [|key keys IH]; intros d Hsub.
  { simpl. apply Forall2_entry_coerced_refl. }
  assert (Hkey : key ∈ dict_keys d) by (apply Hsub; by left).
  assert (Hkeys : keys ⊆ dict_keys d) by (intros x Hx; apply Hsub; by right).
  apply dict_get_keys in Hkey as [v Hv].
  simpl. unfold bind, coerce_key. unfold_M. rewrite Hv. simpl.
  destruct (py_float v) as [fl|e] eqn:Hf; simpl.
  - destruct (dict_set_entry_coerced d key fl) as [Hc|Hn].
    2:{ exfalso. apply Hn, dict_get_keys. by eexists. }
    specialize (IH (dict_set d key (PFloat fl))).
    rewrite (Forall2_entry_coerced_keys _ _ Hc) in IH. specialize (IH Hkeys).
    rewrite coerce_keys_pure. simpl.
    destruct (coerce_keys keys _ σ).1.1 as [d'|e']; simpl; [|done].
    by eapply Forall2_entry_coerced_trans.
  - destruct (py_float_raises _ _ Hf) as [-> | [-> | ->]]; simpl.
    + specialize (IH d Hkeys). rewrite coerce_keys_pure. simpl.
      by destruct (coerce_keys keys d σ).1.1.
    + by left.
    + by right.
Qed.

Lemma dict_get_set d key x key' :
  dict_get (dict_set d key x) key' =
    if String.eqb key key' then Some x else dict_get d key'.
Proof.
  induction d as [|[k w] d IH]; simpl; [done|].
  destruct (String.eqb_spec k key) as [->|Hne]; simpl.
  - by destruct (String.eqb_spec key key').
  - rewrite IH. destruct (String.eqb_spec k key') as [->|Hne'].
    + destruct (String.eqb_spec key key'); [congruence|done].
    + done.
Qed.

(** When the loop over the keys raises, [float] has raised on a value of
    the dictionary as it was decoded. *)
Lemma coerce_keys_raises keys d σ e :
  keys ⊆ dict_keys d →
  (coerce_keys keys d σ).1.1 = Raise e →
  ∃ key v, dict_get d key = Some v ∧ py_float v = Raise e.
Proof.
  revert d. induction keys as [|key keys IH]; intros d Hsub; [done|].
  assert (Hkey : key ∈ dict_keys d) by (apply Hsub; by left).
  assert (Hkeys : keys ⊆ dict_keys d) by (intros x Hx; apply Hsub; by right).
  apply dict_get_keys in Hkey as [v Hv].
  simpl. unfold bind, coerce_key. unfold_M. rewrite Hv. simpl.
  destruct (py_float v) as [fl|e0] eqn:Hf; simpl.
  - destruct (dict_set_entry_coerced d key fl) as [Hc|Hn].
    2:{ exfalso. apply Hn, dict_get_keys. by eexists. }
    specialize (IH (dict_set d key (PFloat fl))).
    rewrite (Forall2_entry_coerced_keys _ _ Hc) in IH. specialize (IH Hkeys).
    rewrite coerce_keys_pure. simpl.
    destruct (coerce_keys keys _ σ).1.1 as [d'|e']; simpl; [done|].
    intros [= <-]. destruct (IH eq_refl) as (key' & v' & Hg & Hf').
    rewrite dict_get_set in Hg. destruct (String.eqb key key').
    + injection Hg as <-. done.
    + by exists key', v'.
  - destruct (py_float_raises _ _ Hf) as [-> | [-> | ->]]; simpl.
    + specialize (IH d Hkeys). rewrite coerce_keys_pure. simpl.
      destruct (coerce_keys keys d σ).1.1; simpl; [done|]. intros [= <-]. by apply IH.
    + intros [= <-]. by exists key, v.
    + intros [= <-]. by exists key, v.
Qed.

(** X7.  When the payload decodes to a JSON object and the decoder
    returns, the result is a dictionary with the same keys in the same
    order, in which every value is the original one or a number put in
    its place; no entry is added, dropped or moved. *)
Theorem decode_object_keeps_keys (self : MQTTSource) (meas : pyval) (value : raw_payload)
    (d : dict) (v : pyval) (σ : state) :
  json_loads value = Ret (PDict d) →
  (decode self meas value σ).1.1 = Ret v →
  ∃ d', v = PDict d' ∧ Forall2 entry_coerced d d' ∧ dict_keys d' = dict_keys d.
Proof.
  intros Hj. unfold decode. unfold_M. rewrite Hj. simpl.
  pose proof (coerce_keys_outcome (dict_keys d) d σ (reflexivity _)) as Hout.
  rewrite coerce_keys_pure. simpl.
  destruct (coerce_keys (dict_keys d) d σ).1.1 as [d'|e]; simpl; [|done].
  intros [= <-]. exists d'. split; [done|]. split; [done|].
  by apply Forall2_entry_coerced_keys.
Qed.

(** X8.  For a measurement name that is a non-empty string, as the
    handler extracts it from the topic, the decoder raises in two cases
    only: [json.loads] raises something other than a [ValueError], which
    passes through; or the payload is a JSON object and [float] raises
    [TypeError] or [OverflowError] on one of its values, which is the
    exception raised. *)
Theorem decode_raises_only (self : MQTTSource) (meas : string) (value : raw_payload)
    (e : exn) (σ : state) :
  meas ≠ EmptyString →
  (decode self (PStr meas) value σ).1.1 = Raise e →
  (json_loads value = Raise e ∧ is_ValueError e = false) ∨
  (∃ d key v, json_loads value = Ret (PDict d) ∧
     dict_get d key = Some v ∧ py_float v = Raise e ∧
     (e = TypeError ∨ e = OverflowError)).
Proof.
  intros _. unfold decode. unfold_M.
  assert (Hsingle : (decode_single self (PStr meas) value σ).1.1 ≠ Raise e).
  { destruct (decode_single_returns self (PStr meas) value σ) as (x & ->). done. }
  destruct (json_loads value) as [v|e0] eqn:Hj; simpl.
  - destruct v;
      try (destruct (decode_single self (PStr meas) value σ) as [[[] ?] ?];
           simpl in *; done).
    pose proof (coerce_keys_outcome (dict_keys d) d σ (reflexivity _)) as Hout.
    pose proof (coerce_keys_raises (dict_keys d) d σ e (reflexivity _)) as Hraise.
    rewrite coerce_keys_pure. simpl.
    destruct (coerce_keys (dict_keys d) d σ).1.1 as [d'|e']; simpl; [done|].
    intros [= <-]. right. destruct (Hraise eq_refl) as (key & v & Hg & Hf).
    by exists d, key, v.
  - destruct (is_ValueError e0) eqn:He0.
    + destruct (decode_single self (PStr meas) value σ) as [[[] ?] ?]; simpl in *; done.
    + simpl. intros [= <-]. by left.
Qed.

(** Whatever the decoder returns is a dictionary. *)
Lemma decode_is_dict self meas value v σ :
  (decode self meas value σ).1.1 = Ret v → is_dict v = true.
Proof.
  unfold decode. unfold_M.
  assert (Hsingle : ∀ v, (decode_single self meas value σ).1.1 = Ret v → is_dict v = true).
  { intros v'. destruct (decode_single_returns self meas value σ) as (x & ->).
    by intros [= <-]. }
  destruct (json_loads value) as [v0|e0] eqn:Hj; simpl.
  - destruct v0;
      try (specialize (Hsingle v);
           destruct (decode_single self meas value σ) as [[[] ?] ?]; simpl in *;
           by auto).
    rewrite coerce_keys_pure. simpl.
    destruct (coerce_keys (dict_keys d) d σ).1.1; simpl; [|done]. by intros [= <-].
  - destruct (is_ValueError e0); [|done]. specialize (Hsingle v).
    destruct (decode_single self meas value σ) as [[[] ?] ?]; simpl in *; by auto.
Qed.
End DecoderProperties.

(** ** The handler as a whole *)

Section HandlerProperties.
Context `{Extern}.

(** The two ways a run of the handler goes. *)
Lemma on_message_cases self msg σ out :
  on_message_at self msg σ = Some out →
  out = (Ret tt, σ, [received_debug msg; no_match_warning msg]) ∨
  ∃ n m,
    out = (let '(res, σ', t) := forward self n m (payload msg) σ in
           (res, σ',
            received_debug msg ::
            (if py_in n (node_names self) then [] else [unknown_node_warning self n]) ++ t)).
Proof.
  unfold on_message_at, on_message.
  destruct (topic_regex (topic_prefix self)) as [rx|]; [|done]. simpl.
  intros [= <-]. destruct (re_match rx (topic msg)) as [g|]; [|by left].
  right. exists (group_val "node_name" g), (group_val "measurement_name" g).
  unfold forward. unfold_M.
  destruct (py_in (group_val "node_name" g) (node_names self)); simpl;
    rewrite (decode_pure self _ (payload msg) σ);
    destruct (decode self _ (payload msg) σ).1.1 as [fields|e]; simpl; try done;
    by destruct (dispatch self _ _ fields σ) as [[? ?] ?].
Qed.

Lemma for_each_store_event l n m f σ st n' m' f' :
  StoreMsg st n' m' f' ∈ (for_each l (fun st => store_msg st n m f) σ).2 →
  n' = n ∧ m' = m ∧ f' = f ∧ st ∈ l.
Proof.
  intros Hin.
  destruct (for_each_store_prefix l n m f σ) as (k & _ & Hc & _).
  assert (Hf : StoreMsg st n' m' f' ∈ store_calls (for_each l (fun st => store_msg st n m f) σ).2).
  { unfold store_calls. apply list_elem_of_In, List.filter_In.
    split; [by apply list_elem_of_In|done]. }
  rewrite Hc in Hf. apply list_elem_of_fmap in Hf as (st' & [= -> -> -> ->] & Hst).
  repeat split. by eapply subseteq_take.
Qed.

Lemma forward_store_call self n m value σ st n' m' f :
  StoreMsg st n' m' f ∈ (forward self n m value σ).2 →
  n' = n ∧ m' = m ∧ (decode self m value σ).1.1 = Ret f.
Proof.
  rewrite forward_decoded.
  destruct (decode self m value σ).1.1 as [fields|e]; [|by intros ?%elem_of_nil].
  destruct (_stores self) as [r|] eqn:Hr.
  - rewrite (dispatch_registered _ r) by done.
    intros (-> & -> & -> & _)%for_each_store_event. done.
  - rewrite dispatch_unregistered by done. by intros ?%elem_of_nil.
Qed.

Lemma on_message_store_call_forward self msg σ out st n m f :
  on_message_at self msg σ = Some out →
  StoreMsg st n m f ∈ out.2 →
  StoreMsg st n m f ∈ (forward self n m (payload msg) σ).2.
Proof.
  intros Hout Hin. destruct (on_message_cases _ _ _ _ Hout) as [->|(n0 & m0 & ->)].
  - simpl in Hin. repeat (apply elem_of_cons in Hin as [Hin|Hin]; [done|]).
    by apply elem_of_nil in Hin.
  - destruct (forward self n0 m0 (payload msg) σ) as [[res σ'] t] eqn:Hf. simpl in Hin.
    apply elem_of_cons in Hin as [Hin|Hin]; [done|].
    apply elem_of_app in Hin as [Hin|Hin].
    { destruct (py_in n0 (node_names self)); [by apply elem_of_nil in Hin|].
      apply list_elem_of_singleton in Hin. done. }
    assert (Hin' : StoreMsg st n m f ∈ (forward self n0 m0 (payload msg) σ).2)
      by (by rewrite Hf).
    destruct (forward_store_call _ _ _ _ _ _ _ _ _ Hin') as (-> & -> & _). done.
Qed.

(** X9.  Whatever the message, the data that the handler passes to a
    store is a dictionary: the type check at the head of
    [InfluxStore.store_msg] passes for every call made by the handler, and
    such a call always reaches its one call of [write_points]. *)
Theorem handler_passes_dictionaries (self : MQTTSource) (msg : MQTTMessage) (σ : state)
    (out : result unit * state * list event) (st : store) (n m f : pyval) :
  on_message_at self msg σ = Some out →
  StoreMsg st n m f ∈ out.2 →
  is_dict f = true ∧
  ∀ c σ', writes (store_msg (InfluxStore c) n m f σ').2 =
          [WritePoints c [influx_msg n m f]].
Proof.
  intros Hout Hin.
  apply (on_message_store_call_forward _ _ _ _ _ _ _ _ Hout) in Hin.
  apply forward_store_call in Hin as (_ & _ & Hd).
  apply decode_is_dict in Hd. split; [done|].
  intros c σ'. by apply influx_store_writes.
Qed.

(** X10.  The names that the handler passes to a store are always the
    first two segments of the topic after the prefix: both are non-empty
    runs of word characters, [-] and [.], and the measurement name is
    followed by the end of the topic or by a character outside that
    class. *)
Theorem handler_passes_topic_names (self : MQTTSource) (msg : MQTTMessage) (σ : state)
    (out : result unit * state * list event) (st : store) (n m f : pyval) :
  is_plain (topic_prefix self) = true →
  on_message_at self msg σ = Some out →
  StoreMsg st n m f ∈ out.2 →
  ∃ node meas rest,
    n = PStr node ∧ m = PStr meas ∧
    topic msg = topic_prefix self +:+ "/" +:+ node +:+ "/" +:+ meas +:+ rest ∧
    is_token node = true ∧ is_token meas = true ∧ ends_token rest.
Proof.
  intros Hp Hout Hin.
  destruct (parse_topic (topic_prefix self) (topic msg)) as [[node meas]|] eqn:Hpt.
  - rewrite (on_message_match _ _ _ _ σ Hp Hpt) in Hout. injection Hout as <-.
    destruct (forward self (PStr node) (PStr meas) (payload msg) σ) as [[res σ'] t] eqn:Hf.
    simpl in Hin. apply elem_of_cons in Hin as [Hin|Hin]; [done|].
    apply elem_of_app in Hin as [Hin|Hin].
    { destruct (existsb _ _); [by apply elem_of_nil in Hin|].
      apply list_elem_of_singleton in Hin. done. }
    assert (Hin' : StoreMsg st n m f ∈
                   (forward self (PStr node) (PStr meas) (payload msg) σ).2)
      by (by rewrite Hf).
    destruct (forward_store_call _ _ _ _ _ _ _ _ _ Hin') as (-> & -> & _).
    destruct (parse_topic_elim _ _ _ _ Hp Hpt) as (rest & ? & ? & ? & ?).
    by exists node, meas, rest.
  - rewrite (on_message_no_match _ _ σ Hp Hpt) in Hout. injection Hout as <-.
    simpl in Hin. repeat (apply elem_of_cons in Hin as [Hin|Hin]; [done|]).
    by apply elem_of_nil in Hin.
Qed.

(** X11.  A run of the handler changes no list object that exists
    before it, in particular not the list of registered stores: the only
    change to the heap is the copy that [stores] makes. *)
Theorem handler_keeps_lists (self : MQTTSource) (msg : MQTTMessage) (σ : state)
    (out : result unit * state * list event) (r : loc) (l : list store) :
  on_message_at self msg σ = Some out →
  heap σ !! r = Some l →
  heap out.1.2 !! r = Some l.
Proof.
  intros Hout Hl. destruct (on_message_cases _ _ _ _ Hout) as [->|(n & m & ->)]; [done|].
  assert (Hfw : heap (forward self n m (payload msg) σ).1.2 !! r = Some l).
  { rewrite forward_decoded.
    destruct (decode self m (payload msg) σ).1.1 as [fields|e]; [|done].
    destruct (_stores self) as [r0|] eqn:Hr.
    - rewrite (dispatch_registered _ r0) by done. unfold after_copy.
      rewrite for_each_store_final_heap. rewrite lookup_insert_ne; [done|].
      intros <-. by rewrite fresh_loc_unused in Hl.
    - by rewrite dispatch_unregistered. }
  by destruct (forward self n m (payload msg) σ) as [[? ?] ?].
Qed.

(** X12.  What follows the measurement name in the topic is ignored: a
    trailing slash or further path segments change nothing in what the
    handler does, apart from the topic shown in its first log entry. *)
Theorem handler_ignores_trailing_segments (self : MQTTSource) (node meas rest : string)
    (value : raw_payload) (σ : state) :
  is_plain (topic_prefix self) = true →
  is_token node = true → is_token meas = true → ends_token rest →
  let short := topic_prefix self +:+ "/" +:+ node +:+ "/" +:+ meas in
  ∃ out1 out2,
    on_message_at self {| topic := short; payload := value |} σ = Some out1 ∧
    on_message_at self {| topic := short +:+ rest; payload := value |} σ = Some out2 ∧
    out1.1 = out2.1 ∧ tail out1.2 = tail out2.2.
Proof.
  intros Hp Hn Hm Hrest short.
  assert (H1 : parse_topic (topic_prefix self) short = Some (node, meas)).
  { unfold short. rewrite <- (append_nil_r meas) at 1. by apply parse_topic_intro. }
  assert (H2 : parse_topic (topic_prefix self) (short +:+ rest) = Some (node, meas)).
  { unfold short. rewrite !append_assoc. by apply parse_topic_intro. }
  rewrite (on_message_match self {| topic := short; payload := value |} _ _ σ Hp H1).
  rewrite (on_message_match self {| topic := short +:+ rest; payload := value |} _ _ σ Hp H2).
  do 2 eexists. split; [done|]. split; [done|]. simpl.
  by destruct (forward self (PStr node) (PStr meas) value σ) as [[? ?] ?].
Qed.

(** X13.  The pattern always asks for a slash after the stored prefix, and
    the stored prefix is empty or starts with a slash: a topic that does
    not start with a slash is dropped, whatever prefix was configured. *)
Theorem handler_drops_topic_without_leading_slash (self : MQTTSource) (p : string)
    (msg : MQTTMessage) (σ : state) :
  topic_prefix self = normalize_prefix p →
  is_plain (topic_prefix self) = true →
  startswith_char (topic msg) "/" = false →
  on_message_at self msg σ =
    Some (Ret tt, σ, [received_debug msg; no_match_warning msg]).
Proof.
  intros Hpre Hp Hslash. apply on_message_no_match; [done|].
  destruct (parse_topic _ _) as [[node meas]|] eqn:Hpt; [|done].
  destruct (parse_topic_elim _ _ _ _ Hp Hpt) as (rest & Htopic & _).
  exfalso. rewrite Htopic, Hpre in Hslash.
  destruct (normalize_prefix_empty_or_slash p) as [Hq|Hq].
  - rewrite Hq in Hslash. done.
  - destruct (normalize_prefix p) as [|a q]; [done|].
    rewrite append_cons in Hslash. simpl in *. congruence.
Qed.
End HandlerProperties.

(** ** [on_connect] and the construction *)

Lemma drop_last_snoc (s : string) (a : ascii) :
  drop_last (s +:+ String a EmptyString) = s.
Proof.
  induction s as [|b s IH]; [done|].
  rewrite append_cons. destruct s as [|c s]; [done|].
  rewrite drop_last_cons; [by rewrite IH|]. by rewrite append_cons.
Qed.

Lemma subscription_topic_base self node :
  drop_last (subscription_topic self node) = topic_prefix self +:+ "/" +:+ node +:+ "/".
Proof.
  unfold subscription_topic.
  change "/#" with ("/" +:+ String "#" EmptyString).
  rewrite <- !append_assoc. rewrite drop_last_snoc. by rewrite !append_assoc.
Qed.

(** X14.  [on_connect] subscribes once for each entry of the node list,
    in the order of the list, to [<prefix>/<node>/#], and stops at the
    first subscription that raises.  The subscriptions made are those of
    the first [k] entries; every one but the last one made returned, and
    the last one made has the outcome of [on_connect]: so [on_connect]
    returns only when every entry has been subscribed and every
    subscription returned, and when it raises it raises what the last
    subscription made raised, and the entries after it are not
    subscribed. *)
Theorem on_connect_subscriptions (subscribe : string → result unit)
    (self : MQTTSource) (rc : Z) :
  ∃ k, (k ≤ length (node_names self))%nat ∧
    subscriptions (on_connect subscribe self rc).2 =
      subscription_topic self <$> take k (node_names self) ∧
    ((on_connect subscribe self rc).1 = Ret tt → k = length (node_names self)) ∧
    (∀ e, (on_connect subscribe self rc).1 = Raise e →
       ∃ node, node_names self !! (k - 1)%nat = Some node ∧ (0 < k)%nat ∧
               subscribe (subscription_topic self node) = Raise e) ∧
    (∀ i node, (i < k)%nat → node_names self !! i = Some node →
       subscribe (subscription_topic self node) =
         if decide (S i < k)%nat then Ret tt else (on_connect subscribe self rc).1).
Proof.
  unfold on_connect.
  assert (Hall : ∀ names, ∃ k, (k ≤ length names)%nat ∧
    subscriptions (subscribe_all subscribe self names).2 =
      subscription_topic self <$> take k names ∧
    ((subscribe_all subscribe self names).1 = Ret tt → k = length names) ∧
    (∀ e, (subscribe_all subscribe self names).1 = Raise e →
       ∃ node, names !! (k - 1)%nat = Some node ∧ (0 < k)%nat ∧
               subscribe (subscription_topic self node) = Raise e) ∧
    (∀ i node, (i < k)%nat → names !! i = Some node →
       subscribe (subscription_topic self node) =
         if decide (S i < k)%nat then Ret tt else (subscribe_all subscribe self names).1)).
  { induction names as [|nd names IH].
    { exists 0%nat. repeat split; simpl; try done; intros; lia. }
    simpl. destruct (subscribe (subscription_topic self nd)) as [[]|e] eqn:Hs.
    - destruct IH as (k & Hk & Hsub & Hret & Hraise & Hrun).
      destruct (subscribe_all subscribe self names) as [r t]. simpl in *.
      exists (S k). split; [lia|]. split; [by rewrite Hsub|].
      split; [intros Hr; by rewrite (Hret Hr)|]. split.
      + intros e He. destruct (Hraise e He) as (node & Hn & Hpos & Hsn).
        exists node. split; [|split; [lia|done]]. destruct k; [lia|]. simpl in *.
        by rewrite Nat.sub_0_r in Hn.
      + intros [|i] node Hi Hn; simpl in *.
        * injection Hn as <-. rewrite Hs.
          destruct (decide (1 < S k)%nat) as [?|Hn]; [done|].
          destruct r as [[]|e]; [done|].
          destruct (Hraise e eq_refl) as (? & _ & ? & _). lia.
        * rewrite (Hrun i node) by (done || lia).
          destruct (decide (S i < k)%nat), (decide (S (S i) < S k)%nat); try lia; done.
    - exists 1%nat. split; [simpl; lia|]. split; [simpl; by rewrite ?take_0|].
      split; [done|]. split.
      + intros e' [= <-]. exists nd. split; [done|]. split; [lia|done].
      + intros [|i] node Hi Hn; simpl in *; [|lia]. injection Hn as <-. by rewrite Hs. }
  destruct (Hall (node_names self)) as (k & Hk & Hsub & Hret & Hraise & Hrun).
  destruct (subscribe_all subscribe self (node_names self)) as [r t]. simpl in *.
  exists k. done.
Qed.

(** X15.  Subscription and handler agree: for a prefix without special
    characters and a listed node whose name is a token, a topic made of
    the subscription topic of that node with [#] replaced by a
    measurement token is parsed into exactly that node and measurement,
    without a warning, and handed on to the decoder and the stores. *)
Theorem subscribed_topic_is_handled `{Extern} (self : MQTTSource) (node meas rest : string)
    (value : raw_payload) (σ : state) :
  is_plain (topic_prefix self) = true →
  node ∈ node_names self →
  is_token node = true → is_token meas = true → ends_token rest →
  let msg := {| topic := drop_last (subscription_topic self node) +:+ meas +:+ rest;
                payload := value |} in
  on_message_at self msg σ =
    Some (let '(res, σ', t) := forward self (PStr node) (PStr meas) value σ in
          (res, σ', received_debug msg :: t)).
Proof.
  intros Hp Hnode Hn Hm Hrest msg.
  assert (Hpt : parse_topic (topic_prefix self) (topic msg) = Some (node, meas)).
  { unfold msg. simpl. rewrite subscription_topic_base, !append_assoc.
    by apply parse_topic_intro. }
  rewrite (on_message_match _ _ _ _ σ Hp Hpt).
  by rewrite (proj2 (py_in_spec node (node_names self)) Hnode).
Qed.

Section ConstructionProperties.
Variable int_of_text : string → result Z.
Variable read_stripped : string → result string.
Variable new_client : string → string → result unit.

(** X16.  A source constructed with a user name but without a password
    file cannot be set up: the [password] attribute is never assigned, and
    reading it for [username_pw_set] raises [AttributeError], after the
    client has been created and before any credentials are set. *)
Theorem username_without_password_file (host port user client_id transport : string)
    (names : list string) (p : string) (sfy : list string) (z : Z) :
  int_of_text port = Ret z →
  new_client client_id transport = Ret tt →
  MQTTSource_new int_of_text read_stripped new_client
    host port (Some user) None client_id transport names p sfy =
  (Raise AttributeError, [NewClient client_id transport]).
Proof. intros Hport Hclient. unfold MQTTSource_new. by rewrite Hport, Hclient. Qed.

(** X17.  The credentials are set exactly when a user name is given, the
    password file is given and read, the port is a number and the client
    is created; the password passed on is the stripped content of the
    file.  In particular a password file without a user name is read but
    never used. *)
Theorem credentials_set_iff (host port client_id transport : string)
    (user_opt file_opt : option string) (names : list string) (p : string)
    (sfy : list string) (user pw : string) :
  UsernamePwSet user pw ∈
    (MQTTSource_new int_of_text read_stripped new_client
       host port user_opt file_opt client_id transport names p sfy).2 ↔
  user_opt = Some user ∧
  (∃ path, file_opt = Some path ∧ read_stripped path = Ret pw) ∧
  (∃ z, int_of_text port = Ret z) ∧
  new_client client_id transport = Ret tt.
Proof.
  unfold MQTTSource_new. split.
  - destruct (int_of_text port) as [z|e] eqn:Hz; [|by intros ?%elem_of_nil].
    destruct file_opt as [path|].
    + destruct (read_stripped path) as [pw'|e] eqn:Hr; [|by intros ?%elem_of_nil].
      destruct (new_client client_id transport) as [[]|e] eqn:Hc.
      2:{ intros [?|?%elem_of_nil]%elem_of_cons; done. }
      destruct user_opt as [u|].
      2:{ intros [?|?%elem_of_nil]%elem_of_cons; done. }
      intros [?|[[= <- <-]|?%elem_of_nil]%elem_of_cons]%elem_of_cons; [done| |done].
      split; [done|]. split; [by exists path|]. split; [by exists z|done].
    + destruct (new_client client_id transport) as [[]|e];
        [destruct user_opt|]; intros [?|?%elem_of_nil]%elem_of_cons; done.
  - intros (-> & (path & -> & Hr) & (z & Hz) & Hc). rewrite Hz, Hr, Hc.
    apply elem_of_cons. right. by apply elem_of_cons; left.
Qed.

(** X18.  A password file that cannot be read ends the construction
    with the exception of the read, before the client is created, also
    when no user name is given and the password would not be used. *)
Theorem unreadable_password_file (host port path client_id transport : string)
    (user_opt : option string) (names : list string) (p : string)
    (sfy : list string) (z : Z) (e : exn) :
  int_of_text port = Ret z →
  read_stripped path = Raise e →
  MQTTSource_new int_of_text read_stripped new_client
    host port user_opt (Some path) client_id transport names p sfy =
  (Raise e, []).
Proof. intros Hport Hread. unfold MQTTSource_new. by rewrite Hport, Hread. Qed.
End ConstructionProperties.

(** * The program on concrete messages

    From here on the environment is [ref_extern]. *)

#[local] Existing Instance ref_extern.

Example topic_regex_nested :
  (r ← topic_regex "/home"; re_match r "/home/n-1/temp.c/x") =
  Some [("measurement_name", "temp.c"); ("node_name", "n-1")].
Proof. reflexivity. Qed.

Example topic_regex_no_measurement :
  (r ← topic_regex EmptyString; Some (re_match r "/n/")) = Some None.
Proof. reflexivity. Qed.

(** A [.] in the prefix stands for any character. *)
Example topic_regex_dot_prefix :
  (r ← topic_regex "/a.b"; re_match r "/axb/n/m") =
  Some [("measurement_name", "m"); ("node_name", "n")].
Proof. reflexivity. Qed.

Example py_str_bytes : py_str (Bytes "23.4") = "b'23.4'".
Proof. reflexivity. Qed.

Example py_str_text : py_str (Text "23.4") = "23.4".
Proof. reflexivity. Qed.

Example parse_float_decimal : Ref.parse_float "1.5" = Some 1.5%float.
Proof. reflexivity. Qed.

Example parse_float_word : Ref.parse_float "open" = None.
Proof. reflexivity. Qed.

Example loads_object :
  Ref.loads (Bytes (js "{'a': '1.5', 'b': 'x', 'c': [1, true, null]}")) =
  Ret (PDict [("a", PStr "1.5"); ("b", PStr "x");
              ("c", PList [PInt 1; PBool true; PNone])]).
Proof. reflexivity. Qed.

(** The object of the specification's example: the numeral is coerced,
    the other text is kept. *)
Example decode_object_example :
  decode (MQTTSource_init ["n"] EmptyString []) (PStr "m")
    (Bytes (js "{'a': '1.5', 'b': 'x'}")) (fresh_state []) =
  (Ret (PDict [("a", PFloat 1.5); ("b", PStr "x")]), fresh_state [], []).
Proof. reflexivity. Qed.

(** A truth value is coerced as well. *)
Example decode_object_bool :
  decode (MQTTSource_init ["n"] EmptyString []) (PStr "m")
    (Bytes (js "{'on': true}")) (fresh_state []) =
  (Ret (PDict [("on", PFloat 1)]), fresh_state [], []).
Proof. reflexivity. Qed.

(** A numeral for a measurement outside the stringify list. *)
Example decode_number :
  decode (MQTTSource_init ["n"] EmptyString ["state"]) (PStr "temp") (Bytes "23.4") (fresh_state []) =
  (Ret (PDict [("value", PFloat (234 / 10))]), fresh_state [], []).
Proof. reflexivity. Qed.

(** Under Python 2 the payload is a [str], and [str] of it is the payload. *)
Example decode_stringify_text :
  decode (MQTTSource_init ["n"] EmptyString ["state"]) (PStr "state") (Text "23.4") (fresh_state []) =
  (Ret (PDict [("value", PStr "23.4")]), fresh_state [], []).
Proof. reflexivity. Qed.

Example decode_word_text :
  decode (MQTTSource_init ["n"] EmptyString ["state"]) (PStr "state") (Text "open") (fresh_state []) =
  (Ret (PDict [("value", PStr "open")]), fresh_state [], []) ∧
  decode (MQTTSource_init ["n"] EmptyString ["state"]) (PStr "temp") (Text "open") (fresh_state []) =
  (Ret (PDict [("value", PStr "open")]), fresh_state [], []).
Proof. split; reflexivity. Qed.

(** Two registrations of the same store: both are kept, in order. *)
Example register_twice :
  let '(self, σ) := registered [InfluxStore 0; InfluxStore 0] [] in
  _stores self = Some 0 ∧ heap σ !! 0 = Some [InfluxStore 0; InfluxStore 0].
Proof. split; reflexivity. Qed.

(** A message from a node outside the allow-list reaches both stores. *)
Example unknown_node_two_stores :
  let self := (registered [InfluxStore 0; InfluxStore 1] []).1 in
  let σ := (registered [InfluxStore 0; InfluxStore 1] []).2 in
  let msg := {| topic := "/other/temp"; payload := Text "1.5" |} in
  (fun o => (o.1, store_calls o.2)) <$> observe (on_message_at self msg σ) =
  Some (Ret tt,
        [StoreMsg (InfluxStore 0) (PStr "other") (PStr "temp") (PDict [("value", PFloat 1.5)]);
         StoreMsg (InfluxStore 1) (PStr "other") (PStr "temp") (PDict [("value", PFloat 1.5)])]).
Proof. vm_compute. reflexivity. Qed.

(** ** Witnesses and counterexamples *)

Lemma C2_unmatched_topic_dropped_witness :
  let self := (registered [InfluxStore 0] []).1 in
  let σ := (registered [InfluxStore 0] []).2 in
  let msg := {| topic := "/n/"; payload := Text "1" |} in
  is_plain (topic_prefix self) = true ∧
  ¬ topic_shape (topic_prefix self) (topic msg) ∧
  on_message_at self msg σ =
    Some (Ret tt, σ, [received_debug msg; no_match_warning msg]).
Proof.
  assert (Hshape : ¬ topic_shape EmptyString "/n/").
  { intros Hs. apply (parse_topic_shape EmptyString "/n/" eq_refl) in Hs.
    vm_compute in Hs. by destruct Hs. }
  split; [reflexivity|]. split; [exact Hshape|].
  apply (C2_unmatched_topic_dropped (registered [InfluxStore 0] []).1); [reflexivity|exact Hshape].
Defined.

(** C2 as stated fails: the third segment of [/n/m:1] is not a token, so
    the topic does not have the shape [<prefix>/<token>/<token>], with or
    without further segments; the handler takes [m] as the measurement
    name and calls the store. *)
Lemma C2_trailing_text_accepted :
  let self := (registered [InfluxStore 0] []).1 in
  let σ := (registered [InfluxStore 0] []).2 in
  let msg := {| topic := "/n/m:1"; payload := Text "1" |} in
  ¬ spec_topic_shape (topic_prefix self) (topic msg) ∧
  observe (on_message_at self msg σ) =
    Some (Ret tt,
      [received_debug msg;
       StoreMsg (InfluxStore 0) (PStr "n") (PStr "m") (PDict [("value", PFloat 1)]);
       Log DEBUG "forwarder.InfluxStore" "Writing InfluxDB point: %s"
         [Arg (influx_msg (PStr "n") (PStr "m") (PDict [("value", PFloat 1)]))];
       WritePoints 0 [influx_msg (PStr "n") (PStr "m") (PDict [("value", PFloat 1)])]]).
Proof.
  split.
  - intros Hs. apply (spec_shape_parse EmptyString "/n/m:1" eq_refl) in Hs
      as (node & meas & tail & Heq & Hpt & Htail).
    vm_compute in Hpt. injection Hpt as <- <-.
    injection Heq as Heq. destruct Htail as [->|[t ->]]; discriminate.
  - vm_compute. reflexivity.
Qed.

Lemma C8_unknown_node_forwarded_witness :
  let self := (registered [InfluxStore 0; InfluxStore 1] []).1 in
  let σ := (registered [InfluxStore 0; InfluxStore 1] []).2 in
  let msg := {| topic := "/other/temp"; payload := Text "1.5" |} in
  is_plain (topic_prefix self) = true ∧
  is_token "other" = true ∧ is_token "temp" = true ∧
  ("other" ∉ node_names self) ∧
  (∃ out, on_message_at self msg σ = Some out ∧
    (let '(res, σ', t) := forward self (PStr "other") (PStr "temp") (payload msg) σ in
     out = (res, σ', received_debug msg :: unknown_node_warning self (PStr "other") :: t)) ∧
    match (decode self (PStr "temp") (payload msg) σ).1.1 with
    | Raise e =>
        out = (Raise e, σ, [received_debug msg; unknown_node_warning self (PStr "other")])
    | Ret fields =>
        ∀ r l, _stores self = Some r → heap σ !! r = Some l →
        ∃ (k : nat) (σs : list state),
          (k ≤ length l)%nat ∧ length σs = S k ∧
          σs !! 0%nat = Some (after_copy σ l) ∧ σs !! k = Some out.1.2 ∧
          store_calls out.2 =
            (fun st => StoreMsg st (PStr "other") (PStr "temp") fields) <$> take k l ∧
          (out.1.1 = Ret tt → k = length l) ∧
          (l ≠ [] → (0 < k)%nat) ∧
          (∀ i st σi σi', l !! i = Some st → σs !! i = Some σi → σs !! S i = Some σi' →
             (store_msg st (PStr "other") (PStr "temp") fields σi).1 =
               (if decide (S i < k)%nat then Ret tt else out.1.1, σi'))
    end).
Proof.
  assert (Hnode : "other" ∉ node_names (registered [InfluxStore 0; InfluxStore 1] []).1).
  { intros Hin. apply list_elem_of_In in Hin. vm_compute in Hin. by destruct Hin. }
  split; [reflexivity|]. split; [reflexivity|]. split; [reflexivity|].
  split; [exact Hnode|].
  apply (C8_unknown_node_forwarded (registered [InfluxStore 0; InfluxStore 1] []).1
           {| topic := "/other/temp"; payload := Text "1.5" |} "other" "temp" EmptyString);
    [reflexivity|reflexivity|reflexivity|reflexivity|exact I|exact Hnode].
Defined.

(** C8 as stated fails: a message for a node outside the allow-list is
    not always forwarded to every registered store.  When the decoding
    raises, here on a JSON object with a [null] value, the handler raises
    after the warning and no store is called; when the call of the first
    store raises, here because the backend rejects the write, the second
    store is not called. *)
Lemma C8_unknown_node_not_forwarded :
  let self := (registered [InfluxStore 0; InfluxStore 1] []).1 in
  let σ := (registered [InfluxStore 0; InfluxStore 1] []).2 in
  let self' := (registered [InfluxStore 0; InfluxStore 1] [Raise InfluxDBClientError]).1 in
  let σ' := (registered [InfluxStore 0; InfluxStore 1] [Raise InfluxDBClientError]).2 in
  let msg := {| topic := "/other/temp"; payload := Bytes (js "{'a': null}") |} in
  let msg' := {| topic := "/other/temp"; payload := Text "1.5" |} in
  spec_topic_shape (topic_prefix self) (topic msg) ∧
  py_in (PStr "other") (node_names self) = false ∧
  heap σ !! 0 = Some [InfluxStore 0; InfluxStore 1] ∧
  heap σ' !! 0 = Some [InfluxStore 0; InfluxStore 1] ∧
  observe (on_message_at self msg σ) =
    Some (Raise TypeError,
          [received_debug msg; unknown_node_warning self (PStr "other")]) ∧
  (fun o => (o.1, store_calls o.2)) <$> observe (on_message_at self' msg' σ') =
    Some (Raise InfluxDBClientError,
          [StoreMsg (InfluxStore 0) (PStr "other") (PStr "temp")
             (PDict [("value", PFloat 1.5)])]).
Proof.
  split; [|repeat split; vm_compute; reflexivity].
  exists "other", "temp", EmptyString. repeat split. by left.
Qed.

Lemma C5_connection_error_caught_witness :
  let σ := fresh_state [Raise ConnectTimeout] in
  let n := PStr "n" in
  let m := PStr "m" in
  let d := [("value", PFloat 1)] in
  let t1 := write_trace 0 n m d ++ [LogException "forwarder.InfluxStore" ConnectTimeout] in
  write_points 0 [influx_msg n m (PDict d)] (net σ) = (Raise ConnectTimeout, []) ∧
  is_ConnectionError ConnectTimeout = true ∧
  store_msg (InfluxStore 0) n m (PDict d) σ = (Ret tt, State (heap σ) [], t1) ∧
  ∀ st n2 m2 f2,
    bind (store_msg (InfluxStore 0) n m (PDict d)) (fun _ => store_msg st n2 m2 f2) σ =
    (let '(r, σ2, t2) := store_msg st n2 m2 f2 (State (heap σ) []) in (r, σ2, t1 ++ t2)).
Proof.
  split; [reflexivity|]. split; [reflexivity|].
  apply (C5_connection_error_caught (H := ref_extern) 0 (PStr "n") (PStr "m")
           [("value", PFloat 1)] (fresh_state [Raise ConnectTimeout]) ConnectTimeout []);
    reflexivity.
Defined.

(** C5 as stated fails: when the backend rejects the write, the client
    raises [InfluxDBClientError], which is not a connection error, and
    [store_msg] lets it through to its caller. *)
Lemma C5_rejected_write_propagates :
  is_ConnectionError InfluxDBClientError = false ∧
  store_msg (H := ref_extern) (InfluxStore 0) (PStr "n") (PStr "m")
    (PDict [("value", PFloat 1)]) (fresh_state [Raise InfluxDBClientError]) =
  (Raise InfluxDBClientError, fresh_state [],
   write_trace 0 (PStr "n") (PStr "m") [("value", PFloat 1)]).
Proof. split; reflexivity. Qed.

Lemma C3_two_stores_in_order_witness :
  let self := (registered [InfluxStore 0; InfluxStore 1] [Raise RequestsConnectionError]).1 in
  let σ := (registered [InfluxStore 0; InfluxStore 1] [Raise RequestsConnectionError]).2 in
  let n := PStr "n" in
  let m := PStr "m" in
  let f := PDict [("value", PFloat 1)] in
  _stores self = Some 0 ∧
  heap σ !! 0 = Some [InfluxStore 0; InfluxStore 1] ∧
  LogException "forwarder.InfluxStore" RequestsConnectionError ∈ (dispatch self n m f σ).2 ∧
  store_calls (dispatch self n m f σ).2 =
    [StoreMsg (InfluxStore 0) n m f; StoreMsg (InfluxStore 1) n m f].
Proof.
  split; [reflexivity|]. split; [reflexivity|].
  apply (proj2 (C3_two_stores_in_order (H := ref_extern)
           (registered [InfluxStore 0; InfluxStore 1] [Raise RequestsConnectionError]).1
           0 (InfluxStore 0) (InfluxStore 1) (PStr "n") (PStr "m")
           (PDict [("value", PFloat 1)])
           (registered [InfluxStore 0; InfluxStore 1] [Raise RequestsConnectionError]).2
           eq_refl eq_refl)
         0 [("value", PFloat 1)] RequestsConnectionError []); reflexivity.
Defined.

(** C3 as stated fails: when the call of the first store raises, here
    because the backend rejects the write, the exception leaves the
    loop and the handler, and the second store is not called. *)
Lemma C3_first_store_raises :
  let self := (registered [InfluxStore 0; InfluxStore 1] [Raise InfluxDBClientError]).1 in
  let σ := (registered [InfluxStore 0; InfluxStore 1] [Raise InfluxDBClientError]).2 in
  let msg := {| topic := "/n/m"; payload := Text "1" |} in
  heap σ !! 0 = Some [InfluxStore 0; InfluxStore 1] ∧
  (fun o => (o.1, store_calls o.2)) <$> observe (on_message_at self msg σ) =
    Some (Raise InfluxDBClientError,
          [StoreMsg (InfluxStore 0) (PStr "n") (PStr "m") (PDict [("value", PFloat 1)])]).
Proof. split; vm_compute; reflexivity. Qed.


(** C9, at the failing input.  On a source that has been constructed but
    on which [register_store] has not been called, a message with a
    well-formed topic makes the handler raise [AttributeError]. *)
Theorem C9_no_store_registered_raises :
  let self := MQTTSource_init ["n"] EmptyString [] in
  let σ := fresh_state [] in
  let msg := {| topic := "/n/m"; payload := Text "1" |} in
  spec_topic_shape (topic_prefix self) (topic msg) ∧
  _stores self = None ∧
  observe (on_message_at self msg σ) = Some (Raise AttributeError, [received_debug msg]).
Proof.
  split; [|split; [reflexivity|vm_compute; reflexivity]].
  exists "n", "m", EmptyString. repeat split. by left.
Qed.

(** C1, at the failing input.  A JSON object with a [null] value decodes
    to a dictionary with the value [None]; [float(None)] raises
    [TypeError], which the loop does not catch: the handler raises and no
    store is called. *)
Theorem C1_null_value_raises :
  let self := (registered [InfluxStore 0] []).1 in
  let σ := (registered [InfluxStore 0] []).2 in
  let msg := {| topic := "/n/m"; payload := Bytes (js "{'a': null}") |} in
  json_loads (payload msg) = Ret (PDict [("a", PNone)]) ∧
  py_float PNone = Raise TypeError ∧
  is_ValueError TypeError = false ∧
  observe (on_message_at self msg σ) = Some (Raise TypeError, [received_debug msg]).
Proof. repeat split; vm_compute; reflexivity. Qed.

(** C4, at the failing input.  Under Python 3 the payload is a [bytes]
    object, and [str] of it is its [repr]: for a measurement in the
    stringify list the payload [23.4] becomes the text [b'23.4']. *)
Theorem C4_bytes_payload_repr :
  let self := MQTTSource_init ["n"] EmptyString ["state"] in
  let σ := fresh_state [] in
  py_in (PStr "state") (stringify self) = true ∧
  decode self (PStr "state") (Bytes "23.4") σ =
    (Ret (PDict [("value", PStr "b'23.4'")]), σ, []).
Proof. split; reflexivity. Qed.

(** C7, at the failing input.  For the [bytes] payload [open] the result
    depends on the stringify list: the text [b'open'] for a measurement in
    the list, the [bytes] object itself otherwise. *)
Theorem C7_bytes_payload_depends_on_stringify :
  let self := MQTTSource_init ["n"] EmptyString ["state"] in
  let σ := fresh_state [] in
  json_loads (Bytes "open") = Raise JSONDecodeError ∧
  float_of_bytes "open" = None ∧
  decode self (PStr "state") (Bytes "open") σ =
    (Ret (PDict [("value", PStr "b'open'")]), σ, []) ∧
  decode self (PStr "temp") (Bytes "open") σ =
    (Ret (PDict [("value", PBytes "open")]), σ, []).
Proof. repeat split; reflexivity. Qed.

(** C6, at the failing input.  Only one trailing slash is removed: the
    prefix [a//] is stored as [/a/]. *)
Theorem C6_double_trailing_slash :
  normalize_prefix "a//" = "/a/" ∧
  topic_prefix (MQTTSource_init ["n"] "a//" []) = "/a/" ∧
  endswith_char (topic_prefix (MQTTSource_init ["n"] "a//" [])) "/" = true.
Proof. repeat split; reflexivity. Qed.

(** ** Witnesses of the further properties *)

Lemma normalize_prefix_idempotent_witness :
  (endswith_char "home/" "/" = true → endswith_char (drop_last "home/") "/" = false) ∧
  normalize_prefix (normalize_prefix "home/") = normalize_prefix "home/".
Proof.
  split; [intros _; reflexivity|].
  apply (normalize_prefix_idempotent "home/"). intros _. reflexivity.
Defined.

Lemma dispatch_calls_initial_segment_witness :
  let self := (registered [InfluxStore 0; MessageStore; InfluxStore 1] []).1 in
  let σ := (registered [InfluxStore 0; MessageStore; InfluxStore 1] []).2 in
  let l := [InfluxStore 0; MessageStore; InfluxStore 1] in
  let n := PStr "n" in
  let m := PStr "m" in
  let f := PDict [("value", PFloat 1)] in
  _stores self = Some 0 ∧ heap σ !! 0 = Some l ∧
  ∃ (k : nat) (σs : list state),
    (k ≤ length l)%nat ∧ length σs = S k ∧
    σs !! 0%nat = Some (after_copy σ l) ∧ σs !! k = Some (dispatch self n m f σ).1.2 ∧
    store_calls (dispatch self n m f σ).2 = (fun st => StoreMsg st n m f) <$> take k l ∧
    ((dispatch self n m f σ).1.1 = Ret tt → k = length l) ∧
    (∀ e, (dispatch self n m f σ).1.1 = Raise e → (0 < k)%nat) ∧
    (∀ i st σi σi', l !! i = Some st → σs !! i = Some σi → σs !! S i = Some σi' →
       (store_msg st n m f σi).1 =
         (if decide (S i < k)%nat then Ret tt else (dispatch self n m f σ).1.1, σi')).
Proof.
  split; [reflexivity|]. split; [reflexivity|].
  apply (dispatch_calls_initial_segment (H := ref_extern)
           (registered [InfluxStore 0; MessageStore; InfluxStore 1] []).1 0
           [InfluxStore 0; MessageStore; InfluxStore 1]); reflexivity.
Defined.

(** The dispatch of the witness above stops at the second store, which
    is the base class: the third store is not called. *)
Example dispatch_stops_at_base_store :
  let self := (registered [InfluxStore 0; MessageStore; InfluxStore 1] []).1 in
  let σ := (registered [InfluxStore 0; MessageStore; InfluxStore 1] []).2 in
  let f := PDict [("value", PFloat 1)] in
  ((dispatch self (PStr "n") (PStr "m") f σ).1.1,
   store_calls (dispatch self (PStr "n") (PStr "m") f σ).2) =
  (Raise NotImplementedError,
   [StoreMsg (InfluxStore 0) (PStr "n") (PStr "m") f;
    StoreMsg MessageStore (PStr "n") (PStr "m") f]).
Proof. vm_compute. reflexivity. Qed.

Lemma registered_stores_called_witness :
  [InfluxStore 0; InfluxStore 0] ≠ [] ∧
  ∃ self σ r,
    register_all (MQTTSource_init ["n"] EmptyString []) [InfluxStore 0; InfluxStore 0]
      (fresh_state []) = (Ret self, σ, []) ∧
    _stores self = Some r ∧ heap σ !! r = Some [InfluxStore 0; InfluxStore 0] ∧
    ((dispatch self (PStr "n") (PStr "m") (PDict []) σ).1.1 = Ret tt →
     store_calls (dispatch self (PStr "n") (PStr "m") (PDict []) σ).2 =
       (fun st => StoreMsg st (PStr "n") (PStr "m") (PDict [])) <$>
         [InfluxStore 0; InfluxStore 0]).
Proof.
  split; [discriminate|].
  apply (registered_stores_called (H := ref_extern) ["n"] EmptyString []
           [InfluxStore 0; InfluxStore 0] (PStr "n") (PStr "m") (PDict []) (fresh_state [])).
  discriminate.
Defined.

Lemma decode_object_keeps_keys_witness :
  let self := MQTTSource_init ["n"] EmptyString [] in
  let value := Bytes (js "{'a': '1.5', 'b': 'x'}") in
  let d := [("a", PStr "1.5"); ("b", PStr "x")] in
  let v := PDict [("a", PFloat 1.5); ("b", PStr "x")] in
  json_loads value = Ret (PDict d) ∧
  (decode self (PStr "m") value (fresh_state [])).1.1 = Ret v ∧
  ∃ d', v = PDict d' ∧ Forall2 entry_coerced d d' ∧ dict_keys d' = dict_keys d.
Proof.
  split; [reflexivity|]. split; [reflexivity|].
  apply (decode_object_keeps_keys (H := ref_extern) (MQTTSource_init ["n"] EmptyString [])
           (PStr "m") (Bytes (js "{'a': '1.5', 'b': 'x'}"))
           [("a", PStr "1.5"); ("b", PStr "x")] _ (fresh_state [])); reflexivity.
Defined.

Lemma decode_single_value_witness :
  let self := MQTTSource_init ["n"] EmptyString ["state"] in
  "temp" ≠ EmptyString ∧
  ∃ x, decode_single self (PStr "temp") (Text "on") (fresh_state []) =
         (Ret (PDict [("value", x)]), fresh_state [], []) ∧
    if py_in (PStr "temp") (stringify self) then x = PStr (py_str (Text "on"))
    else match py_float (payload_val (Text "on")) with
         | Ret f => x = PFloat f
         | Raise e => e = ValueError ∧ x = payload_val (Text "on")
         end.
Proof.
  split; [discriminate|].
  apply (decode_single_value (H := ref_extern) (MQTTSource_init ["n"] EmptyString ["state"])
           "temp" (Text "on") (fresh_state [])).
  discriminate.
Defined.

Lemma decode_raises_only_witness :
  let self := MQTTSource_init ["n"] EmptyString [] in
  let value := Bytes (js "{'a': null}") in
  "m" ≠ EmptyString ∧
  (decode self (PStr "m") value (fresh_state [])).1.1 = Raise TypeError ∧
  ((json_loads value = Raise TypeError ∧ is_ValueError TypeError = false) ∨
   (∃ d key v, json_loads value = Ret (PDict d) ∧
      dict_get d key = Some v ∧ py_float v = Raise TypeError ∧
      (TypeError = TypeError ∨ TypeError = OverflowError))).
Proof.
  split; [discriminate|]. split; [reflexivity|].
  apply (decode_raises_only (H := ref_extern) (MQTTSource_init ["n"] EmptyString [])
           "m" (Bytes (js "{'a': null}")) TypeError (fresh_state []));
    [discriminate|reflexivity].
Defined.

(** The run used by the witnesses below: one store registered, a
    message for the listed node. *)
Lemma handler_run_example :
  let self := (registered [InfluxStore 0] []).1 in
  let σ := (registered [InfluxStore 0] []).2 in
  let msg := {| topic := "/n/m/x"; payload := Text "1" |} in
  let out := default (Ret tt, σ, []) (on_message_at self msg σ) in
  on_message_at self msg σ = Some out ∧
  StoreMsg (InfluxStore 0) (PStr "n") (PStr "m") (PDict [("value", PFloat 1)]) ∈ out.2.
Proof.
  split; [reflexivity|].
  apply list_elem_of_In. vm_compute. right. left. reflexivity.
Qed.

Lemma handler_passes_dictionaries_witness :
  let self := (registered [InfluxStore 0] []).1 in
  let σ := (registered [InfluxStore 0] []).2 in
  let msg := {| topic := "/n/m/x"; payload := Text "1" |} in
  let out := default (Ret tt, σ, []) (on_message_at self msg σ) in
  let f := PDict [("value", PFloat 1)] in
  on_message_at self msg σ = Some out ∧
  StoreMsg (InfluxStore 0) (PStr "n") (PStr "m") f ∈ out.2 ∧
  is_dict f = true ∧
  ∀ c σ', writes (store_msg (InfluxStore c) (PStr "n") (PStr "m") f σ').2 =
          [WritePoints c [influx_msg (PStr "n") (PStr "m") f]].
Proof.
  destruct handler_run_example as [Hout Hin].
  split; [exact Hout|]. split; [exact Hin|].
  exact (handler_passes_dictionaries (H := ref_extern) _ _ _ _ _ _ _ _ Hout Hin).
Defined.

Lemma handler_passes_topic_names_witness :
  let self := (registered [InfluxStore 0] []).1 in
  let σ := (registered [InfluxStore 0] []).2 in
  let msg := {| topic := "/n/m/x"; payload := Text "1" |} in
  let out := default (Ret tt, σ, []) (on_message_at self msg σ) in
  is_plain (topic_prefix self) = true ∧
  on_message_at self msg σ = Some out ∧
  StoreMsg (InfluxStore 0) (PStr "n") (PStr "m") (PDict [("value", PFloat 1)]) ∈ out.2 ∧
  ∃ node meas rest,
    PStr "n" = PStr node ∧ PStr "m" = PStr meas ∧
    topic msg = topic_prefix self +:+ "/" +:+ node +:+ "/" +:+ meas +:+ rest ∧
    is_token node = true ∧ is_token meas = true ∧ ends_token rest.
Proof.
  destruct handler_run_example as [Hout Hin].
  split; [reflexivity|]. split; [exact Hout|]. split; [exact Hin|].
  exact (handler_passes_topic_names (H := ref_extern) _ _ _ _ _ _ _ _
           (eq_refl : is_plain (topic_prefix (registered [InfluxStore 0] []).1) = true)
           Hout Hin).
Defined.

Lemma handler_keeps_lists_witness :
  let self := (registered [InfluxStore 0] []).1 in
  let σ := (registered [InfluxStore 0] []).2 in
  let msg := {| topic := "/n/m/x"; payload := Text "1" |} in
  let out := default (Ret tt, σ, []) (on_message_at self msg σ) in
  on_message_at self msg σ = Some out ∧
  heap σ !! 0 = Some [InfluxStore 0] ∧ heap out.1.2 !! 0 = Some [InfluxStore 0].
Proof.
  destruct handler_run_example as [Hout _].
  split; [exact Hout|]. split; [reflexivity|].
  exact (handler_keeps_lists (H := ref_extern) _ _ _ _ 0 [InfluxStore 0] Hout eq_refl).
Defined.

Lemma handler_ignores_trailing_segments_witness :
  let self := (registered [InfluxStore 0] []).1 in
  let σ := (registered [InfluxStore 0] []).2 in
  is_plain (topic_prefix self) = true ∧ is_token "n" = true ∧ is_token "m" = true ∧
  ends_token "/x/y" ∧
  ∃ out1 out2,
    on_message_at self {| topic := "/n/m"; payload := Text "1" |} σ = Some out1 ∧
    on_message_at self {| topic := "/n/m" +:+ "/x/y"; payload := Text "1" |} σ = Some out2 ∧
    out1.1 = out2.1 ∧ tail out1.2 = tail out2.2.
Proof.
  repeat (split; [reflexivity|]).
  apply (handler_ignores_trailing_segments (H := ref_extern)
           (registered [InfluxStore 0] []).1 "n" "m" "/x/y" (Text "1")
           (registered [InfluxStore 0] []).2); reflexivity.
Defined.

Lemma handler_drops_topic_without_leading_slash_witness :
  let self := (registered [InfluxStore 0] []).1 in
  let σ := (registered [InfluxStore 0] []).2 in
  let msg := {| topic := "n/m"; payload := Text "1" |} in
  topic_prefix self = normalize_prefix EmptyString ∧ is_plain (topic_prefix self) = true ∧
  startswith_char (topic msg) "/" = false ∧
  on_message_at self msg σ =
    Some (Ret tt, σ, [received_debug msg; no_match_warning msg]).
Proof.
  repeat (split; [reflexivity|]).
  apply (handler_drops_topic_without_leading_slash (H := ref_extern)
           (registered [InfluxStore 0] []).1 EmptyString
           {| topic := "n/m"; payload := Text "1" |}); reflexivity.
Defined.

Lemma subscribed_topic_is_handled_witness :
  let self := (registered [InfluxStore 0] []).1 in
  let σ := (registered [InfluxStore 0] []).2 in
  let msg := {| topic := drop_last (subscription_topic self "n") +:+ "temp" +:+ EmptyString;
                payload := Text "1" |} in
  subscription_topic self "n" = "/n/#" ∧
  on_message_at self msg σ =
    Some (let '(res, σ', t) := forward self (PStr "n") (PStr "temp") (Text "1") σ in
          (res, σ', received_debug msg :: t)).
Proof.
  split; [reflexivity|].
  apply (subscribed_topic_is_handled (H := ref_extern)
           (registered [InfluxStore 0] []).1 "n" "temp" EmptyString (Text "1")
           (registered [InfluxStore 0] []).2);
    [reflexivity|apply list_elem_of_In; left; reflexivity|reflexivity|reflexivity|exact I].
Defined.

Lemma username_without_password_file_witness :
  MQTTSource_new (fun _ => Ret 1883%Z) (fun _ => Ret "secret") (fun _ _ => Ret tt)
    "broker" "1883" (Some "user") None EmptyString "tcp" ["n"] EmptyString [] =
  (Raise AttributeError, [NewClient EmptyString "tcp"]).
Proof.
  apply (username_without_password_file (fun _ => Ret 1883%Z) (fun _ => Ret "secret")
           (fun _ _ => Ret tt) "broker" "1883" "user" EmptyString "tcp" ["n"] EmptyString [] 1883%Z);
    reflexivity.
Defined.

Lemma unreadable_password_file_witness :
  MQTTSource_new (fun _ => Ret 1883%Z) (fun _ => Raise ValueError) (fun _ _ => Ret tt)
    "broker" "1883" None (Some "pw.txt") EmptyString "tcp" ["n"] EmptyString [] =
  (Raise ValueError, []).
Proof.
  apply (unreadable_password_file (fun _ => Ret 1883%Z) (fun _ => Raise ValueError)
           (fun _ _ => Ret tt) "broker" "1883" "pw.txt" EmptyString "tcp" None ["n"] EmptyString []
           1883%Z ValueError); reflexivity.
Defined.

(** The subscriptions of a source with two nodes, the second of which
    the client rejects. *)
Example on_connect_second_rejected :
  let self := MQTTSource_init ["a"; "b#"; "c"] "home/" [] in
  on_connect (fun t => if String.eqb t "/home/b#/#" then Raise ValueError else Ret tt)
    self 0%Z =
  (Raise ValueError,
   [LogInfo mqtt_logger "Connected with result code  %s" [Arg (PInt 0)];
    LogInfo mqtt_logger "Subscribing to topic %s for node_name %s"
      [Arg (PStr "/home/a/#"); Arg (PStr "a")];
    Subscribe "/home/a/#";
    LogInfo mqtt_logger "Subscribing to topic %s for node_name %s"
      [Arg (PStr "/home/b#/#"); Arg (PStr "b#")];
    Subscribe "/home/b#/#"]).
Proof. reflexivity. Qed.
